(** * Climago: comfort score, smart alerts, gear rules, advice and verdict
      parsing, and the AI response cache.

    A shallow embedding of the rule engines and text parsers of the Climago
    front end (comfort score, alerts, advice lines, UV card, planner slots,
    travel advice and verdict parsing) and of the response cache, the two
    AI endpoints and the gear rules of its Express back end, with the
    properties the specification states about them and further properties
    read off the code.  The
    front-end page script and the server are both in src/script.js (the
    server from line 884 on); the compare page script is the second part of
    src/README.md.

    Conventions.
    - A JavaScript string is the list of its UTF-16 code units ([jsstring]).
    - A finite JavaScript number read from a JSON payload is a rational
      ([Q]): every finite double is one, and the code only compares such
      numbers with integer constants.  The comfort score itself only ever
      takes integer values (5 plus integer adjustments) and is a [Z].
    - Regular expressions are run by a small backtracking matcher that
      follows the order in which the ECMAScript matcher tries alternatives
      (greedy: longest first; lazy: shortest first; alternation: left to
      right). *)

From Stdlib Require Import ZArith NArith QArith Qminmax Qround List Ascii String Lia Lqa.
From stdpp Require Import base option list gmap.
Import ListNotations.

Set Warnings "-clear-no-such-hyp".

Local Open Scope N_scope.
Local Open Scope list_scope.

(** ** JavaScript strings *)

Module JS.

Abbreviation char := N (only parsing).
Abbreviation jsstring := (list N) (only parsing).

(** An ASCII literal of the source, as code units (one per character; not
    to be used for text outside ASCII). *)
Definition js (s : string) : jsstring :=
  List.map N_of_ascii (list_ascii_of_string s).
Arguments js _%_string.

Definition nl : char := 10.
Definition space : char := 32.
Definition star : char := 42.
Definition hyphen : char := 45.
Definition enDash : char := 8211.

Definition inRange (lo hi c : char) : bool := (lo <=? c) && (c <=? hi).

(** LineTerminator: LF, CR, LS, PS. *)
Definition isLineTerminator (c : char) : bool :=
  (c =? 10) || (c =? 13) || (c =? 8232) || (c =? 8233).

(** WhiteSpace and LineTerminator: what [\s] matches and [trim] strips. *)
Definition isSpace (c : char) : bool :=
  inRange 9 13 c || (c =? 32) || (c =? 160) || (c =? 5760)
  || inRange 8192 8202 c || (c =? 8232) || (c =? 8233) || (c =? 8239)
  || (c =? 8287) || (c =? 12288) || (c =? 65279).

(** [\d] *)
Definition isDigit (c : char) : bool := inRange 48 57 c.

(** [.] without the s flag, and with it. *)
Definition dot (c : char) : bool := negb (isLineTerminator c).
Definition dotAll (_ : char) : bool := true.

(** Case mapping of one code unit.  Only Basic Latin letters are mapped;
    on code units below 128 this is exactly what [toLowerCase] and
    [toUpperCase] do.  The Unicode tables for the other code units belong
    to the host and are not modelled: such code units are left unchanged. *)
Definition lowerChar (c : char) : char := if inRange 65 90 c then c + 32 else c.
Definition upperChar (c : char) : char := if inRange 97 122 c then c - 32 else c.

Definition toLowerCase (s : jsstring) : jsstring := List.map lowerChar s.
Definition toUpperCase (s : jsstring) : jsstring := List.map upperChar s.

Fixpoint trimStart (s : jsstring) : jsstring :=
  match s with
  | c :: s' => if isSpace c then trimStart s' else s
  | [] => []
  end.

Definition trimEnd (s : jsstring) : jsstring := rev (trimStart (rev s)).

Definition trim (s : jsstring) : jsstring := trimEnd (trimStart s).

(** [s.split(sep)] for a one-character separator: never the empty array. *)
Fixpoint split (sep : char) (s : jsstring) : list jsstring :=
  match s with
  | [] => [[]]
  | c :: s' =>
      if c =? sep then [] :: split sep s'
      else match split sep s' with
           | l :: ls => (c :: l) :: ls
           | [] => [[c]]
           end
  end.

(** [xs.join(sep)] *)
Fixpoint join (sep : jsstring) (xs : list jsstring) : jsstring :=
  match xs with
  | [] => []
  | [x] => x
  | x :: xs' => x ++ sep ++ join sep xs'
  end.

(** [s.replace(/[*]/g, '')] *)
Definition stripStars (s : jsstring) : jsstring :=
  List.filter (fun c => negb (c =? star)) s.

(** [w] is a prefix of [s] up to [eqc]; the rest of [s] after it. *)
Fixpoint stripPrefix (eqc : char -> char -> bool) (w s : jsstring)
  : option jsstring :=
  match w, s with
  | [], _ => Some s
  | a :: w', c :: s' => if eqc a c then stripPrefix eqc w' s' else None
  | _ :: _, [] => None
  end.

(** [s.includes(w)] *)
Fixpoint includes (w s : jsstring) : bool :=
  match stripPrefix N.eqb w s with
  | Some _ => true
  | None => match s with
            | _ :: s' => includes w s'
            | [] => false
            end
  end.

End JS.
Import JS.

(** ** Regular expressions *)

Module Regex.

Inductive quant := Once | Star | Plus | PlusLazy.

Inductive look :=
| LookLit (w : jsstring)
| LookEnd.

(** The pieces the program's patterns are built from, left to right. *)
Inductive atom :=
| Alt (ci : bool) (ws : list jsstring) (* w1|w2|...; [ci]: the i flag *)
| Cls (p : char -> bool) (q : quant)   (* a character class, quantified *)
| Open (i : nat)                       (* start of capture group i *)
| Close (i : nat)                      (* end of capture group i *)
| Ahead (ls : list look)               (* (?=l1|l2|...) *)
| Eol.                                 (* $ without the m flag *)

Definition Lit (w : jsstring) : atom := Alt false [w].

(** Where each group was opened (the input left at that point) and what
    each closed group captured. *)
Record mstate := MState {
  opens : list (nat * jsstring);
  caps : list (nat * jsstring)
}.

Definition init : mstate := MState [] [].

Fixpoint assoc (i : nat) (l : list (nat * jsstring)) : option jsstring :=
  match l with
  | (j, v) :: l' => if Nat.eqb i j then Some v else assoc i l'
  | [] => None
  end.

Definition openGroup (i : nat) (s : jsstring) (st : mstate) : mstate :=
  MState ((i, s) :: opens st) (caps st).

Definition closeGroup (i : nat) (s : jsstring) (st : mstate) : mstate :=
  match assoc i (opens st) with
  | Some o => MState (opens st) ((i, take (length o - length s) o) :: caps st)
  | None => st
  end.

(** Canonicalize of the i flag (no u flag): a code unit is compared through
    its upper case, and a code unit of 128 or above never folds onto one
    below 128, so against Basic Latin pattern letters only Basic Latin
    letters match. *)
Definition eqChar (ci : bool) (a c : char) : bool :=
  if ci then upperChar a =? upperChar c else a =? c.

Section Backtracking.
Context {R : Type}.
Variable k : jsstring -> option R.

(** Alternatives in order; the next one is tried when the rest of the
    pattern fails after this one. *)
Fixpoint tryAlts (ci : bool) (ws : list jsstring) (s : jsstring) : option R :=
  match ws with
  | [] => None
  | w :: ws' =>
      match stripPrefix (eqChar ci) w s with
      | Some s' => match k s' with
                   | Some r => Some r
                   | None => tryAlts ci ws' s
                   end
      | None => tryAlts ci ws' s
      end
  end.

(** [p*]: as many as possible first, then fewer. *)
Fixpoint greedyStar (p : char -> bool) (s : jsstring) : option R :=
  match s with
  | c :: s' =>
      if p c then match greedyStar p s' with
                  | Some r => Some r
                  | None => k s
                  end
      else k s
  | [] => k s
  end.

(** [p*?]: as few as possible first, then more. *)
Fixpoint lazyStar (p : char -> bool) (s : jsstring) : option R :=
  match k s with
  | Some r => Some r
  | None => match s with
            | c :: s' => if p c then lazyStar p s' else None
            | [] => None
            end
  end.

Definition one (p : char -> bool) (f : jsstring -> option R) (s : jsstring)
  : option R :=
  match s with
  | c :: s' => if p c then f s' else None
  | [] => None
  end.
End Backtracking.

Definition lookOk (s : jsstring) (l : look) : bool :=
  match l with
  | LookLit w => bool_decide (is_Some (stripPrefix N.eqb w s))
  | LookEnd => match s with [] => true | _ => false end
  end.

(** Match [pat] at the start of [s]; the result is the final state and the
    input left after the match. *)
Fixpoint run (pat : list atom) (st : mstate) (s : jsstring)
  : option (mstate * jsstring) :=
  match pat with
  | [] => Some (st, s)
  | a :: pat' =>
      let k := run pat' in
      match a with
      | Alt ci ws => tryAlts (k st) ci ws s
      | Cls p Once => one p (k st) s
      | Cls p Star => greedyStar (k st) p s
      | Cls p Plus => one p (greedyStar (k st) p) s
      | Cls p PlusLazy => one p (lazyStar (k st) p) s
      | Open i => k (openGroup i s st) s
      | Close i => k (closeGroup i s st) s
      | Ahead ls => if existsb (lookOk s) ls then k st s else None
      | Eol => match s with [] => k st s | _ :: _ => None end
      end
  end.

(** A pattern that begins with [^] (no m flag) can only match at index 0. *)
Definition execAnchored (pat : list atom) (s : jsstring) :=
  run pat init s.

(** Otherwise the leftmost index at which the pattern matches. *)
Fixpoint exec (pat : list atom) (s : jsstring) : option (mstate * jsstring) :=
  match run pat init s with
  | Some r => Some r
  | None => match s with
            | _ :: s' => exec pat s'
            | [] => None
            end
  end.

(** [m[i]] of a successful match. *)
Definition group (i : nat) (r : mstate * jsstring) : jsstring :=
  default [] (assoc i (caps (fst r))).

End Regex.
Import Regex.

(** ** Numbers and exceptions *)

Definition Qleb (x y : Q) : bool := Qle_bool x y.
Definition Qltb (x y : Q) : bool := negb (Qle_bool y x).
Definition Qgeb (x y : Q) : bool := Qleb y x.
Definition Qgtb (x y : Q) : bool := Qltb y x.

(** What a JavaScript call can do instead of returning. *)
Inductive jsError := TypeError.

Inductive result (A : Type) :=
| Ok (a : A)
| Throw (e : jsError).
Arguments Ok {A} a.
Arguments Throw {A} e.

#[global] Instance result_ret : MRet result := fun A a => Ok a.
#[global] Instance result_bind : MBind result := fun A B f r =>
  match r with
  | Ok a => f a
  | Throw e => Throw e
  end.

Definition nonEmpty (s : jsstring) : bool :=
  match s with [] => false | _ :: _ => true end.

(** ** Comfort score ([scoreWeather], src/script.js 851-866; the compare
       page has the same function, src/README.md 328-343) *)

Module Score.

(** The fields of the OpenWeather payload the rules read:
    [main.temp], [main.humidity], [wind.speed], [weather[0].main]. *)
Record WeatherSnapshot := Snapshot {
  temp : Q;
  humidity : Q;
  windSpeed : Q;
  condition : jsstring
}.

(** [/Rain|Snow|Thunder/] *)
Definition conditionRe : list atom :=
  [Alt false [js "Rain"; js "Snow"; js "Thunder"]].

(** The score after the temperature and humidity rules, before the
    condition rule. *)
Definition weatherAdjusted (data : WeatherSnapshot) : Z :=
  let score := 5%Z in
  let t := temp data in
  let hum := humidity data in
  let score :=
    if Qgeb t 18 && Qleb t 26 then (score + 3)%Z
    else if Qgeb t 10 && Qltb t 18 then (score + 1)%Z
    else if Qgtb t 26 && Qleb t 32 then (score + 1)%Z
    else score in
  let score := if Qgeb hum 30 && Qleb hum 60 then (score + 2)%Z else score in
  let score := if Qgtb t 35 || Qltb t 0 then (score - 3)%Z else score in
  let score := if Qgtb hum 80 then (score - 1)%Z else score in
  score.

Definition conditionMatches (c : jsstring) : bool :=
  bool_decide (is_Some (exec conditionRe c)).

Definition scoreWeather (data : WeatherSnapshot) : Z :=
  let score := weatherAdjusted data in
  let score :=
    if conditionMatches (condition data) then (score - 2)%Z else score in
  Z.min 10 (Z.max 0 score).

End Score.
Import Score.

(** ** Smart alerts ([getSmartAlerts], src/script.js 655-680) *)

Module Alerts.

Inductive smartAlert :=
| ExtremeHeat | HighHeat | SevereCold | ColdAdvisory | StrongWind
| VeryHighHumidity | Thunderstorm | Snowfall | HeavyRainWind
| PoorAir | HazardousAir | Challenging.

(** The text pushed for each alert. *)
Definition alertText (a : smartAlert) : string :=
  match a with
  | ExtremeHeat => "Extreme heat warning — stay indoors and hydrate."
  | HighHeat => "High heat advisory — avoid prolonged sun exposure."
  | SevereCold => "Severe cold warning — frostbite risk."
  | ColdAdvisory => "Cold advisory — dress warmly."
  | StrongWind => "Strong wind advisory — secure loose objects."
  | VeryHighHumidity => "Very high humidity — may feel uncomfortable."
  | Thunderstorm => "Thunderstorm warning — stay indoors."
  | Snowfall => "Snowfall — drive cautiously."
  | HeavyRainWind => "Heavy rain with wind — carry sturdy umbrella."
  | PoorAir => "Air quality is poor — wear a mask outdoors."
  | HazardousAir => "Hazardous air quality — avoid all outdoor activities."
  | Challenging => "Overall conditions are challenging — plan accordingly."
  end%string.

#[global] Instance smartAlert_eq_dec : EqDecision smartAlert.
Proof. solve_decision. Defined.

(** The air-quality payload [{ list: [ { main: { aqi } } ] }]: [list] may
    be missing, and each entry is read for its [main.aqi]. *)
Record AqiData := { aqiList : option (list Q) }.

(** [/Thunder/i], [/Snow/i], [/Rain/i] with [test]. *)
Definition testCI (w : jsstring) (s : jsstring) : bool :=
  bool_decide (is_Some (exec [Alt true [w]] s)).

Definition pushIf {A} (b : bool) (x : A) (l : list A) : list A :=
  if b then l ++ [x] else l.

Definition getSmartAlerts (data : WeatherSnapshot) (aqiData : option AqiData)
    (score : Z) : result (list smartAlert) :=
  let alerts := [] in
  let t := temp data in
  let hum := humidity data in
  let wind := windSpeed data in
  let condition := condition data in
  let alerts :=
    if Qgtb t 40 then alerts ++ [ExtremeHeat]
    else pushIf (Qgtb t 35) HighHeat alerts in
  let alerts :=
    if Qltb t (-5) then alerts ++ [SevereCold]
    else pushIf (Qltb t 5) ColdAdvisory alerts in
  let alerts := pushIf (Qgtb wind 15) StrongWind alerts in
  let alerts := pushIf (Qgtb hum 85) VeryHighHumidity alerts in
  let alerts := pushIf (testCI (js "Thunder") condition) Thunderstorm alerts in
  let alerts := pushIf (testCI (js "Snow") condition) Snowfall alerts in
  let alerts :=
    pushIf (testCI (js "Rain") condition && Qgtb wind 10) HeavyRainWind alerts in
  alerts ←
    match aqiData with
    | Some {| aqiList := Some l |} =>
        match l with
        | aqi :: _ =>
            let alerts := pushIf (Qgeb aqi 4) PoorAir alerts in
            let alerts := pushIf (Qgeb aqi 5) HazardousAir alerts in
            Ok alerts
        | [] => Throw TypeError (* [aqiData.list[0]] is undefined *)
        end
    | _ => Ok alerts
    end;
  Ok (pushIf (score <? 3)%Z Challenging alerts).

End Alerts.
Import Alerts.

(** ** Gear rules (the handler of POST /api/places, src/script.js
       1262-1281) *)

Module Gear.

Record GearItem := { item : jsstring; reason : jsstring }.

(** [temp], [condition] and [uv] of the request body; [condition] and [uv]
    may be missing. *)
Definition gear (temp : Q) (condition : option jsstring) (uv : option Q)
  : list GearItem :=
  let gear := [] in
  let gear :=
    match uv with
    | Some u =>
        if negb (Qeq_bool u 0) && Qgtb u 5
        then gear ++ [ {| item := js "Sunscreen"; reason := js "High UV index" |};
                       {| item := js "Hat/Sunglasses"; reason := js "Sun protection" |} ]
        else gear
    | None => gear
    end in
  let cond := toLowerCase (default [] condition) in
  let gear :=
    if includes (js "rain") cond || includes (js "drizzle") cond
       || includes (js "thunder") cond
    then gear ++ [ {| item := js "Umbrella"; reason := js "Rain expected" |} ]
    else gear in
  let gear :=
    if includes (js "snow") cond
    then gear ++ [ {| item := js "Boots"; reason := js "Snowy conditions" |} ]
    else gear in
  let gear :=
    if Qltb temp 15
    then gear ++ [ {| item := js "Coat/Jacket"; reason := js "Chilly temperatures" |} ]
    else if Qgtb temp 30
    then gear ++ [ {| item := js "Water Bottle"; reason := js "Stay hydrated in heat" |} ]
    else gear in
  if (length gear =? 0)%nat
  then gear ++ [ {| item := js "Comfortable Shoes"; reason := js "Good for walking" |} ]
  else gear.

End Gear.
Import Gear.

(** ** Travel advice ([renderTravelAdvice], src/script.js 756-848) *)

Module Advice.

(** The label pattern of the scan, with the i flag (written here with
    spaces between its pieces):
    [^ (PLACES|NEARBY|WEAR|EAT|ALERT) \s* : \s* ( .* )] *)
Definition sectionRe : list atom :=
  [ Open 1;
    Alt true [js "PLACES"; js "NEARBY"; js "WEAR"; js "EAT"; js "ALERT"];
    Close 1;
    Cls isSpace Star; Lit (js ":"); Cls isSpace Star;
    Open 2; Cls dot Star; Close 2 ].

Definition isDash (c : char) : bool := (c =? hyphen) || (c =? enDash).

(** [/^\d+\.\s*(.+?)\s*[-–]\s*(.+)$/] *)
Definition placeRe : list atom :=
  [ Cls isDigit Plus; Lit (js "."); Cls isSpace Star;
    Open 1; Cls dot PlusLazy; Close 1;
    Cls isSpace Star; Cls isDash Once; Cls isSpace Star;
    Open 2; Cls dot Plus; Close 2; Eol ].

(** [/^\d+\.\s*/] *)
Definition numberingRe : list atom :=
  [ Cls isDigit Plus; Lit (js "."); Cls isSpace Star ].

(** The [sections] object (own properties only) and [currentKey]. *)
Record scanState := Scan {
  sections : gmap jsstring (list jsstring);
  currentKey : jsstring
}.

Definition scanInit : scanState := Scan ∅ [].

(** [arr.push(x)] on the value read from [sections[key]]: a TypeError when
    that value is undefined. *)
Definition push (arr : option (list jsstring)) (x : jsstring)
  : result (list jsstring) :=
  match arr with
  | Some l => Ok (l ++ [x])
  | None => Throw TypeError
  end.

(** One iteration of the loop over [text.split('\n')]. *)
Definition scanLine (st : scanState) (line : jsstring) : result scanState :=
  let trimmed := trim line in
  if negb (nonEmpty trimmed) then Ok st
  else
    match execAnchored sectionRe trimmed with
    | Some sectionMatch =>
        let currentKey := toUpperCase (group 1 sectionMatch) in
        let rest := group 2 sectionMatch in
        Ok (Scan (<[currentKey := if nonEmpty rest then [rest] else []]>
                    (sections st))
                 currentKey)
    | None =>
        if nonEmpty (currentKey st) then
          let sections1 :=
            <[currentKey st := default [] (sections st !! currentKey st)]>
              (sections st) in
          arr ← push (sections1 !! currentKey st) trimmed;
          Ok (Scan (<[currentKey st := arr]> sections1) (currentKey st))
        else Ok st
    end.

Fixpoint scanLines (st : scanState) (lines : list jsstring)
  : result scanState :=
  match lines with
  | [] => Ok st
  | line :: lines' => st' ← scanLine st line; scanLines st' lines'
  end.

Definition parseSections (text : jsstring) : result scanState :=
  scanLines scanInit (split nl text).

Record Place := { name : jsstring; desc : jsstring }.

(** The callback of [map] in [parsePlaces]; [None] is the [null] that
    [filter(Boolean)] removes. *)
Definition parsePlace (l : jsstring) : option Place :=
  match execAnchored placeRe l with
  | Some m =>
      Some {| name := trim (stripStars (group 1 m));
              desc := trim (stripStars (group 2 m)) |}
  | None =>
      let unnumbered :=
        match execAnchored numberingRe l with
        | Some m => snd m
        | None => l
        end in
      let clean := trim (stripStars unnumbered) in
      if nonEmpty clean then Some {| name := clean; desc := [] |} else None
  end.

Definition parsePlaces (lines : option (list jsstring)) : list Place :=
  omap parsePlace (default [] lines).

(** [(sections.KEY || []).join(' ').replace(/[*]/g, '').trim()] *)
Definition freeText (lines : option (list jsstring)) : jsstring :=
  trim (stripStars (join [space] (default [] lines))).

Inductive tipIcon := IconWear | IconEat | IconAlert.

Record Tip := { icon : tipIcon; text : jsstring }.

Definition isNone (alert : jsstring) : bool :=
  bool_decide (toLowerCase alert = js "none")
  || bool_decide (toLowerCase alert = js "none.").

(** What [renderTravelAdvice] computes before it writes the HTML. *)
Record AdviceDocument := {
  places : list Place;
  nearby : list Place;
  wear : jsstring;
  eat : jsstring;
  alert : jsstring
}.

Definition parseAdvice (text : jsstring) : result AdviceDocument :=
  st ← parseSections text;
  let sections := sections st in
  Ok {| places := parsePlaces (sections !! js "PLACES");
        nearby := parsePlaces (sections !! js "NEARBY");
        wear := freeText (sections !! js "WEAR");
        eat := freeText (sections !! js "EAT");
        alert := freeText (sections !! js "ALERT") |}.

(** The quick-tips strip. *)
Definition tips (doc : AdviceDocument) : list Tip :=
  let tips := [] in
  let tips := if nonEmpty (wear doc)
              then tips ++ [ {| icon := IconWear; text := wear doc |} ]
              else tips in
  let tips := if nonEmpty (eat doc)
              then tips ++ [ {| icon := IconEat; text := eat doc |} ]
              else tips in
  if nonEmpty (alert doc) && negb (isNone (alert doc))
  then tips ++ [ {| icon := IconAlert; text := alert doc |} ]
  else tips.

(** The parsed document and the tips that are displayed. *)
Definition renderTravelAdvice (text : jsstring)
  : result (AdviceDocument * list Tip) :=
  doc ← parseAdvice text; Ok (doc, tips doc).

End Advice.
Import Advice.

(** ** Comparison verdict ([renderVerdict], src/README.md 290-325) *)

Module Verdict.

(** [/COMPARISON:\s*(.+?)(?=WINNER:|$)/s] *)
Definition compRe : list atom :=
  [ Lit (js "COMPARISON:"); Cls isSpace Star;
    Open 1; Cls dotAll PlusLazy; Close 1;
    Ahead [LookLit (js "WINNER:"); LookEnd] ].

(** [/WINNER:\s*(.+?)(?=REASON:|$)/s] *)
Definition winRe : list atom :=
  [ Lit (js "WINNER:"); Cls isSpace Star;
    Open 1; Cls dotAll PlusLazy; Close 1;
    Ahead [LookLit (js "REASON:"); LookEnd] ].

(** [/REASON:\s*(.+?)$/s] *)
Definition reasonRe : list atom :=
  [ Lit (js "REASON:"); Cls isSpace Star;
    Open 1; Cls dotAll PlusLazy; Close 1; Eol ].

(** [let x = ''; const m = text.match(re); if (m) x = m[1].trim();] *)
Definition field (re : list atom) (text : jsstring) : jsstring :=
  match exec re text with
  | Some m => trim (group 1 m)
  | None => []
  end.

Definition comparisonOf : jsstring -> jsstring := field compRe.
Definition winnerOf : jsstring -> jsstring := field winRe.
Definition reasonOf : jsstring -> jsstring := field reasonRe.

(** [text.replace(/\n/g, '<br>')] *)
Definition replaceNewlines (text : jsstring) : jsstring :=
  flat_map (fun c => if c =? nl then js "<br>" else [c]) text.

(** The two cards [renderVerdict] can write into the page: the one around
    the raw text, and the one with the three parsed fields. *)
Inductive VerdictView :=
| RawText (html : jsstring)
| Structured (comparison winner reason : jsstring).

Definition renderVerdict (text nameA nameB : jsstring) : VerdictView :=
  let comparison := comparisonOf text in
  let winner := winnerOf text in
  let reason := reasonOf text in
  if negb (nonEmpty winner) then RawText (replaceNewlines text)
  else Structured comparison winner reason.

End Verdict.
Import Verdict.

(** ** AI response cache ([getCached], [setCache], src/script.js
       1143-1159) *)

Module Cache.

Record entry := Entry { data : jsstring; ts : Z }.

(** 15 minutes in milliseconds. *)
Definition CACHE_TTL : Z := 15 * 60 * 1000.

(** [getCached(key)] when [Date.now()] is [now]: the value returned
    ([None] for [null]) and the map afterwards. *)
Definition getCached (now : Z) (key : jsstring) (aiCache : gmap jsstring entry)
  : option jsstring * gmap jsstring entry :=
  match aiCache !! key with
  | None => (None, aiCache)
  | Some e =>
      if (now - ts e >? CACHE_TTL)%Z then (None, delete key aiCache)
      else (Some (data e), aiCache)
  end.

(** [setCache(key, data)] when [Date.now()] is [now]. *)
Definition setCache (now : Z) (key data : jsstring)
    (aiCache : gmap jsstring entry) : gmap jsstring entry :=
  <[key := Entry data now]> aiCache.



End Cache.
Import Cache.

(** ** The rest of the weather page (src/script.js) *)

Module Page.

(** [generateAdvice] (src/script.js 868-874) *)
Definition generateAdvice (data : WeatherSnapshot) (score : Z) : list jsstring :=
  let arr := [] in
  let arr := pushIf (Qgtb (temp data) 28) (js "Light clothing recommended.") arr in
  let arr := pushIf (Qltb (temp data) 10) (js "Coat required.") arr in
  let arr := pushIf (score >? 8)%Z (js "Perfect weather for outdoor plans.") arr in
  if (length arr =? 0)%nat then [js "Enjoy your day."] else arr.

(** [getUVDesc] (src/script.js 603-608) *)
Definition getUVDesc (uvi : Q) : jsstring :=
  if Qleb uvi 2 then js "Low"
  else if Qleb uvi 5 then js "Moderate"
  else if Qleb uvi 7 then js "High"
  else js "Very High".

(** The colour of the UV card in [renderExtras] (src/script.js 447-450). *)
Definition uvColor (uvi : Q) : jsstring :=
  let uvColor := js "#03dac6" in
  let uvColor := if Qgtb uvi 2 then js "#ffeb3b" else uvColor in
  let uvColor := if Qgtb uvi 5 then js "#ff9800" else uvColor in
  let uvColor := if Qgtb uvi 7 then js "#cf6679" else uvColor in
  uvColor.

(** The UV payload: [{ current: { uvi } }] or [{ value }]. *)
Record UvData := { current : option Q; value : option Q }.

(** A number in a condition: absent and 0 are falsy. *)
Definition truthy (x : option Q) : bool :=
  match x with
  | Some q => negb (Qeq_bool q 0)
  | None => false
  end.

(** [x || 0] *)
Definition orZero (x : option Q) : Q :=
  match x with
  | Some q => if Qeq_bool q 0 then 0%Q else q
  | None => 0%Q
  end.


(** [uvVal] of [processWeatherData] (src/script.js 276). *)
Definition uvVal (uvData : option UvData) : Q :=
  match uvData with
  | Some {| current := Some uvi |} => uvi
  | Some {| current := None; value := v |} =>
      if truthy v then default 0%Q v else 0%Q
  | None => 0%Q
  end.

(** [Math.round]: the nearest integer, halves upwards. *)
Definition mathRound (x : Q) : Z := Qfloor (x + (1 # 2))%Q.

(** The gear the server answers to the request [fetchPlaces] sends
    (src/script.js 300-308): the temperature rounded, the condition
    description, and [uvVal || 0]. *)
Definition requestedGear (data : WeatherSnapshot) (description : jsstring)
    (uvVal : Q) : list GearItem :=
  gear (inject_Z (mathRound (temp data))) (Some description)
       (Some (orZero (Some uvVal))).

(** [getSlotSuggestion] (src/script.js 569-574) *)
Definition getSlotSuggestion (temp pop : Q) (main : jsstring) : jsstring :=
  if Qgtb pop (1 # 2)
     || bool_decide (is_Some (exec [Alt true [js "rain"; js "snow"]] main))
  then js "Expect precipitation, stay dry."
  else if Qgtb temp 30 then js "Heat warning, stay cool."
  else if Qltb temp 10 then js "Bundle up."
  else js "Conditions look good.".

(** An entry of [forecast.list]: [dt], [main.temp],
    [weather[0].description], [weather[0].icon], [pop], [weather[0].main]. *)
Record ForecastItem := {
  dt : Z;
  itemTemp : Q;
  itemDesc : jsstring;
  itemIcon : jsstring;
  itemPop : Q;
  itemMain : jsstring
}.

Record SlotData := {
  slotTemp : Q;
  slotDesc : jsstring;
  slotIcon : jsstring;
  slotPop : Q;
  suggestion : jsstring
}.

Inductive slotName := Morning | Afternoon | Evening | Night.

#[global] Instance slotName_eq_dec : EqDecision slotName.
Proof. solve_decision. Defined.

(** The [slots] object: its four properties, [None] for [null]. *)
Record Slots := {
  morning : option SlotData;
  afternoon : option SlotData;
  evening : option SlotData;
  night : option SlotData
}.

Definition getSlot (s : slotName) (slots : Slots) : option SlotData :=
  match s with
  | Morning => morning slots
  | Afternoon => afternoon slots
  | Evening => evening slots
  | Night => night slots
  end.

Definition setSlot (s : slotName) (v : SlotData) (slots : Slots) : Slots :=
  match s with
  | Morning => {| morning := Some v; afternoon := afternoon slots;
                  evening := evening slots; night := night slots |}
  | Afternoon => {| morning := morning slots; afternoon := Some v;
                    evening := evening slots; night := night slots |}
  | Evening => {| morning := morning slots; afternoon := afternoon slots;
                  evening := Some v; night := night slots |}
  | Night => {| morning := morning slots; afternoon := afternoon slots;
                evening := evening slots; night := Some v |}
  end.

Definition slotOfHour (h : Z) : slotName :=
  if (6 <=? h)%Z && (h <? 12)%Z then Morning
  else if (12 <=? h)%Z && (h <? 17)%Z then Afternoon
  else if (17 <=? h)%Z && (h <? 21)%Z then Evening
  else Night.

Definition slotDataOf (item : ForecastItem) : SlotData :=
  {| slotTemp := itemTemp item;
     slotDesc := itemDesc item;
     slotIcon := itemIcon item;
     slotPop := itemPop item;
     suggestion := getSlotSuggestion (itemTemp item) (itemPop item) (itemMain item) |}.

Section Forecast.

(** [new Date(ms).getHours()]: the hour of a time stamp in the time zone of
    the browser, which the page does not control. *)
Variable getHours : Z -> Z.

(** The callback of [forEach] in [processForecast] (src/script.js 544-564). *)
Definition forecastStep (slots : Slots) (item : ForecastItem) : Slots :=
  let h := getHours (dt item * 1000) in
  let slot := slotOfHour h in
  match getSlot slot slots with
  | None => setSlot slot (slotDataOf item) slots
  | Some _ => slots
  end.

(** [processForecast] (src/script.js 539-566) on [forecast.list]. *)
Definition processForecast (list : list ForecastItem) : Slots :=
  fold_left forecastStep list
    {| morning := None; afternoon := None; evening := None; night := None |}.

End Forecast.

End Page.
Import Page.

(** ** The two AI endpoints of the server (src/script.js 1100-1249) *)

Module Server.








End Server.
Import Server.

(** * Vocabulary of the statements *)

(** [w] occurs in [s], letter case respected. *)
Definition contains (w s : jsstring) : Prop :=
  exists pre post, s = pre ++ w ++ post.

(** [w] occurs in [s] in some letter case. *)
Definition containsAnyCase (w s : jsstring) : Prop :=
  exists pre mid post, s = pre ++ mid ++ post /\ toLowerCase mid = toLowerCase w.

(** The sum before the clamp: the base 5 with every applicable bonus and
    penalty. *)
Definition unclamped (d : WeatherSnapshot) : Z :=
  (weatherAdjusted d - (if conditionMatches (condition d) then 2 else 0))%Z.

(** Temperature 22, humidity 45, no wind, condition rain in lower case. *)
Definition lowercaseRain : WeatherSnapshot :=
  Snapshot 22 45 0 (js "rain").

(** Temperature 45, humidity 90, wind 20, condition Thunderstorm; and an
    air-quality payload whose index is 5. *)
Definition stormySnapshot : WeatherSnapshot :=
  Snapshot 45 90 20 (js "Thunderstorm").

Definition aqi5 : option AqiData := Some {| aqiList := Some [5%Q] |}.

Definition labels : list jsstring :=
  [js "PLACES"; js "NEARBY"; js "WEAR"; js "EAT"; js "ALERT"].

(** How the scan classifies a line: the section key and the rest of a label
    line, or [None] for any other line. *)
Definition labelOf (line : jsstring) : option (jsstring * jsstring) :=
  match execAnchored sectionRe (trim line) with
  | Some m => Some (toUpperCase (group 1 m), group 2 m)
  | None => None
  end.

(** The array a label line leaves in its section. *)
Definition restLines (r : jsstring) : list jsstring :=
  if nonEmpty r then [r] else [].

(** The lines that follow a label line and are attributed to its section:
    the non-blank lines, trimmed, up to the next label line. *)
Fixpoint contentUntilLabel (lines : list jsstring) : list jsstring :=
  match lines with
  | [] => []
  | l :: ls =>
      if negb (nonEmpty (trim l)) then contentUntilLabel ls
      else match labelOf l with
           | Some _ => []
           | None => trim l :: contentUntilLabel ls
           end
  end.

Definition adviceSample : jsstring :=
  join [nl]
    [ js "PLACES:";
      js "1. Eiffel Tower - Iconic landmark";
      js "NEARBY:";
      js "1. Versailles - 20km, royal palace";
      js "WEAR: Light jacket";
      js "EAT: Croissant at a cafe";
      js "ALERT: None" ].

Definition adviceSampleDocument : AdviceDocument :=
  {| places := [ {| name := js "Eiffel Tower"; desc := js "Iconic landmark" |} ];
     nearby := [ {| name := js "Versailles"; desc := js "20km, royal palace" |} ];
     wear := js "Light jacket";
     eat := js "Croissant at a cafe";
     alert := js "None" |}.

Definition emptyDocument : AdviceDocument :=
  {| places := []; nearby := []; wear := []; eat := []; alert := [] |}.

(** The condition carries one of the three tokens of the score. *)
Definition stormy (c : jsstring) : Prop :=
  contains (js "Rain") c \/ contains (js "Snow") c \/ contains (js "Thunder") c.

(** The rule table of [getSmartAlerts], in the order of the source. *)
Definition ruleOrder : list smartAlert :=
  [ ExtremeHeat; HighHeat; SevereCold; ColdAdvisory; StrongWind;
    VeryHighHumidity; Thunderstorm; Snowfall; HeavyRainWind; PoorAir;
    HazardousAir; Challenging ].

Definition temperatureAlerts : list smartAlert :=
  [ExtremeHeat; HighHeat; SevereCold; ColdAdvisory].

(** The index the air-quality rules read: that of the first entry of the
    list, when there is a payload with a list. *)
Definition firstAqi (aqiData : option AqiData) : option Q :=
  match aqiData with
  | Some {| aqiList := Some (aqi :: _) |} => Some aqi
  | _ => None
  end.

(** When each rule fires. *)
Definition fires (d : WeatherSnapshot) (aqi : option Q) (score : Z)
    (a : smartAlert) : Prop :=
  match a with
  | ExtremeHeat => (40 < temp d)%Q
  | HighHeat => (35 < temp d <= 40)%Q
  | SevereCold => (temp d < -5)%Q
  | ColdAdvisory => (-5 <= temp d < 5)%Q
  | StrongWind => (15 < windSpeed d)%Q
  | VeryHighHumidity => (85 < humidity d)%Q
  | Thunderstorm => containsAnyCase (js "Thunder") (condition d)
  | Snowfall => containsAnyCase (js "Snow") (condition d)
  | HeavyRainWind =>
      containsAnyCase (js "Rain") (condition d) /\ (10 < windSpeed d)%Q
  | PoorAir => exists q, aqi = Some q /\ (4 <= q)%Q
  | HazardousAir => exists q, aqi = Some q /\ (5 <= q)%Q
  | Challenging => (score < 3)%Z
  end.

(** The gear entries, and the order in which the rules add them. *)
Definition sunscreen : GearItem :=
  {| item := js "Sunscreen"; reason := js "High UV index" |}.
Definition hat : GearItem :=
  {| item := js "Hat/Sunglasses"; reason := js "Sun protection" |}.
Definition umbrella : GearItem :=
  {| item := js "Umbrella"; reason := js "Rain expected" |}.
Definition boots : GearItem :=
  {| item := js "Boots"; reason := js "Snowy conditions" |}.
Definition coat : GearItem :=
  {| item := js "Coat/Jacket"; reason := js "Chilly temperatures" |}.
Definition waterBottle : GearItem :=
  {| item := js "Water Bottle"; reason := js "Stay hydrated in heat" |}.
Definition shoes : GearItem :=
  {| item := js "Comfortable Shoes"; reason := js "Good for walking" |}.

Definition gearOrder : list GearItem :=
  [sunscreen; hat; umbrella; boots; coat; waterBottle; shoes].

#[global] Instance GearItem_eq_dec : EqDecision GearItem.
Proof. solve_decision. Defined.

(** The condition, lowercased, mentions rain, drizzle or thunder. *)
Definition rainy (condition : option jsstring) : Prop :=
  let cond := toLowerCase (default [] condition) in
  contains (js "rain") cond \/ contains (js "drizzle") cond
  \/ contains (js "thunder") cond.

Definition snowy (condition : option jsstring) : Prop :=
  contains (js "snow") (toLowerCase (default [] condition)).

(** The UV index is there and above 5. *)
Definition sunny (uv : option Q) : Prop :=
  exists u, uv = Some u /\ (5 < u)%Q.

(** Precipitation is likely, or the condition says rain or snow in any
    letter case. *)
Definition wet (pop : Q) (main : jsstring) : Prop :=
  (1 # 2 < pop)%Q \/ containsAnyCase (js "rain") main
  \/ containsAnyCase (js "snow") main.

(** The items of a forecast list that fall into a slot. *)
Definition inSlot (getHours : Z -> Z) (s : slotName) (item : ForecastItem)
  : Prop :=
  slotOfHour (getHours (dt item * 1000)%Z) = s.

(** The tests of [gear] as one condition each. *)
Definition sunnyb (uv : option Q) : bool :=
  match uv with
  | Some u => negb (Qeq_bool u 0) && Qgtb u 5
  | None => false
  end.

Definition rainyb (condition : option jsstring) : bool :=
  let cond := toLowerCase (default [] condition) in
  includes (js "rain") cond || includes (js "drizzle") cond
  || includes (js "thunder") cond.

Definition snowyb (condition : option jsstring) : bool :=
  includes (js "snow") (toLowerCase (default [] condition)).

(** The list before the fallback is considered. *)
Definition gearRules (t : Q) (condition : option jsstring) (uv : option Q)
  : list GearItem :=
  let g := if sunnyb uv then [sunscreen; hat] else [] in
  let g := pushIf (rainyb condition) umbrella g in
  let g := pushIf (snowyb condition) boots g in
  if Qltb t 15 then g ++ [coat] else pushIf (Qgtb t 30) waterBottle g.

#[global] Instance inSlot_dec getHours s item : Decision (inSlot getHours s item).
Proof. unfold inSlot. apply _. Defined.

(** Every LF of a text turned into CR LF. *)
Definition crlf (raw : jsstring) : jsstring :=
  flat_map (fun c => if c =? nl then [13; nl] else [c]) raw.

(** A displayed text is clean: no emphasis star, nothing to trim. *)
Definition clean (s : jsstring) : Prop := (star ∉ s) /\ trim s = s.

Fixpoint takeWhileB (p : char -> bool) (s : jsstring) : jsstring :=
  match s with
  | c :: s' => if p c then c :: takeWhileB p s' else []
  | [] => []
  end.

Fixpoint dropWhileB (p : char -> bool) (s : jsstring) : jsstring :=
  match s with
  | c :: s' => if p c then dropWhileB p s' else s
  | [] => []
  end.

(** What may follow a label word: white space, a colon, white space, and
    then the rest of the line up to its first line terminator. *)
Definition afterLabel (s : jsstring) : option jsstring :=
  match trimStart s with
  | c :: s' => if c =? 58 then Some (takeWhileB dot (trimStart s')) else None
  | [] => None
  end.

(** The label pattern read directly: the first label word, in any letter
    case, at the start of the line that is followed as [afterLabel] says. *)
Fixpoint labelDirectFrom (ws : list jsstring) (s : jsstring)
  : option (jsstring * jsstring) :=
  match ws with
  | [] => None
  | w :: ws' =>
      match stripPrefix (eqChar true) w s with
      | Some s1 =>
          match afterLabel s1 with
          | Some r => Some (w, r)
          | None => labelDirectFrom ws' s
          end
      | None => labelDirectFrom ws' s
      end
  end.

Definition labelDirect (line : jsstring) : option (jsstring * jsstring) :=
  labelDirectFrom labels (trim line).

(** What the scan keeps true of its state. *)
Definition wellFormed (st : scanState) : Prop :=
  (forall k, is_Some (sections st !! k) -> k ∈ labels)
  /\ (currentKey st = [] \/ currentKey st ∈ labels)
  /\ (forall k ls, sections st !! k = Some ls -> Forall (fun l => l <> []) ls).

(** * Properties *)

(** ** Substrings and the matcher *)

Lemma stripPrefix_exact (w s s' : jsstring) :
  stripPrefix N.eqb w s = Some s' <-> s = w ++ s'.
Proof.
  revert s; induction w as [|a w IH]; intros s; simpl.
  - split; congruence.
  - destruct s as [|c s]; [split; discriminate|].
    destruct (N.eqb_spec a c) as [->|Hne].
    + rewrite IH. split; congruence.
    + split; [discriminate | intros [= ? ?]; congruence].
Qed.

Lemma tryAlts_is_Some {R} (f : jsstring -> R) ci ws s :
  is_Some (tryAlts (fun s' => Some (f s')) ci ws s)
  <-> Exists (fun w => is_Some (stripPrefix (eqChar ci) w s)) ws.
Proof.
  induction ws as [|w ws IH]; simpl.
  - rewrite Exists_nil. split; [intros [? [=]] | tauto].
  - rewrite Exists_cons.
    destruct (stripPrefix (eqChar ci) w s) as [s'|]; simpl.
    + split; eauto.
    + rewrite IH. split; [tauto | intros [[? [=]] | ?]; done].
Qed.

(** ** What a successful match went through *)

Lemma tryAlts_inv {R} (k : jsstring -> option R) ci ws s r :
  tryAlts k ci ws s = Some r ->
  exists w s', w ∈ ws /\ stripPrefix (eqChar ci) w s = Some s' /\ k s' = Some r.
Proof.
  induction ws as [|w ws IH]; simpl; [done|].
  destruct (stripPrefix (eqChar ci) w s) as [s'|] eqn:E.
  - destruct (k s') as [r'|] eqn:Ek.
    + intros [= <-]. exists w, s'. split; [left|done].
    + intros H. destruct (IH H) as (w' & s'' & ? & ? & ?).
      exists w', s''. split; [by right|done].
  - intros H. destruct (IH H) as (w' & s'' & ? & ? & ?).
    exists w', s''. split; [by right|done].
Qed.

Lemma greedyStar_inv {R} (k : jsstring -> option R) p s r :
  greedyStar k p s = Some r -> exists s', k s' = Some r.
Proof.
  induction s as [|c s IH]; simpl; [eauto|].
  destruct (p c); [|eauto].
  destruct (greedyStar k p s); [intros [= <-]; eauto | eauto].
Qed.

Lemma lazyStar_inv {R} (k : jsstring -> option R) p s r :
  lazyStar k p s = Some r -> exists s', k s' = Some r.
Proof.
  induction s as [|c s IH]; simpl.
  - destruct (k []) eqn:E; [intros [= <-]; eauto | done].
  - destruct (k (c :: s)) eqn:E; [intros [= <-]; eauto |].
    destruct (p c); [eauto | done].
Qed.

Lemma one_inv {R} p (f : jsstring -> option R) s r :
  one p f s = Some r -> exists c s', s = c :: s' /\ p c = true /\ f s' = Some r.
Proof.
  destruct s as [|c s]; simpl; [done|].
  destruct (p c) eqn:E; [eauto | done].
Qed.

Lemma assoc_closeGroup_ne i j s st :
  i <> j -> assoc i (caps (closeGroup j s st)) = assoc i (caps st).
Proof.
  intros Hne. unfold closeGroup.
  destruct (assoc j (opens st)); [simpl|done].
  destruct (Nat.eqb_spec i j); [done|done].
Qed.

(** A capture is not touched by the part of a pattern that does not close
    its group. *)
Lemma run_caps_preserved (i : nat) (pat : list atom) :
  Forall (fun a => a <> Close i) pat ->
  forall st s r, run pat st s = Some r ->
                 assoc i (caps (fst r)) = assoc i (caps st).
Proof.
  induction 1 as [|a pat Ha _ IH]; intros st s r; simpl.
  - by intros [= <-].
  - destruct a as [ci ws|p q|j|j|ls|].
    + intros H. apply tryAlts_inv in H as (? & ? & _ & _ & H). eauto.
    + destruct q; intros H.
      * apply one_inv in H as (? & ? & _ & _ & H). eauto.
      * apply greedyStar_inv in H as (? & H). eauto.
      * apply one_inv in H as (? & ? & _ & _ & H).
        apply greedyStar_inv in H as (? & H). eauto.
      * apply one_inv in H as (? & ? & _ & _ & H).
        apply lazyStar_inv in H as (? & H). eauto.
    + intros H. by rewrite (IH _ _ _ H).
    + intros H. rewrite (IH _ _ _ H).
      apply assoc_closeGroup_ne. congruence.
    + destruct (existsb (lookOk s) ls); [eauto | done].
    + destruct s; [eauto | done].
Qed.

Lemma run_Open i pat st s :
  run (Open i :: pat) st s = run pat (openGroup i s st) s.
Proof. reflexivity. Qed.

Lemma run_Close i pat st s :
  run (Close i :: pat) st s = run pat (closeGroup i s st) s.
Proof. reflexivity. Qed.

Lemma run_Alt ci ws pat st s :
  run (Alt ci ws :: pat) st s = tryAlts (run pat st) ci ws s.
Proof. reflexivity. Qed.

Lemma exec_nil pat :
  exec pat [] = run pat init [].
Proof. simpl. by destruct (run pat init []). Qed.

Lemma exec_cons pat c s :
  exec pat (c :: s)
  = match run pat init (c :: s) with
    | Some r => Some r
    | None => exec pat s
    end.
Proof. reflexivity. Qed.

Lemma stripPrefix_folded (w s s' : jsstring) :
  stripPrefix (eqChar true) w s = Some s' ->
  exists m, s = m ++ s' /\ toUpperCase m = toUpperCase w.
Proof.
  revert s; induction w as [|a w IH]; intros s; simpl.
  - intros [= ->]. by exists [].
  - destruct s as [|c s]; [done|].
    destruct (N.eqb_spec (upperChar a) (upperChar c)) as [Heq|]; [|done].
    intros H. destruct (IH _ H) as (m & -> & Hm).
    exists (c :: m). split; [done|]. simpl. by rewrite Hm, Heq.
Qed.

Lemma Exists_iff {A} (P Q : A -> Prop) (l : list A) :
  (forall x, P x <-> Q x) -> Exists P l <-> Exists Q l.
Proof.
  intros H. split; intros HE; (eapply Exists_impl; [exact HE|]);
    intros x; apply H.
Qed.

(** A pattern that is one case-sensitive alternation finds a match exactly
    when one of its words occurs in the input. *)
Lemma run_alt_prefix (ws : list jsstring) (s : jsstring) :
  is_Some (run [Alt false ws] init s)
  <-> Exists (fun w => exists post, s = w ++ post) ws.
Proof.
  rewrite run_Alt.
  change (run [] init) with (fun s' : jsstring => Some (init, s')).
  rewrite tryAlts_is_Some. apply Exists_iff. intros w.
  unfold is_Some. by setoid_rewrite stripPrefix_exact.
Qed.

Lemma exec_alt_contains (ws : list jsstring) (s : jsstring) :
  is_Some (exec [Alt false ws] s) <-> Exists (fun w => contains w s) ws.
Proof.
  induction s as [|c s IH].
  - rewrite exec_nil, run_alt_prefix. apply Exists_iff. intros w. split.
    + intros [post ->]. by exists [], post.
    + intros ([|] & post & H); [by exists post | done].
  - rewrite exec_cons.
    pose proof (run_alt_prefix ws (c :: s)) as Hrun.
    destruct (run [Alt false ws] init (c :: s)) as [r|].
    + split; [intros _ | eauto].
      eapply Exists_impl; [apply Hrun; eauto|].
      intros w [post ->]. by exists [], post.
    + rewrite IH, !Exists_exists. split.
      * intros (w & Hin & pre & post & ->).
        exists w. split; [done|]. by exists (c :: pre), post.
      * intros (w & Hin & [|c' pre] & post & Hw).
        -- assert (Hn : is_Some (@None (mstate * jsstring))); [|by destruct Hn].
           apply Hrun, Exists_exists. exists w. split; [done|]. by exists post.
        -- injection Hw as -> ->. exists w. split; [done|]. by exists pre, post.
Qed.

(** ** Comfort score *)

Lemma conditionMatches_spec (c : jsstring) :
  conditionMatches c = true
  <-> contains (js "Rain") c \/ contains (js "Snow") c
      \/ contains (js "Thunder") c.
Proof.
  unfold conditionMatches, conditionRe.
  rewrite bool_decide_eq_true, exec_alt_contains.
  rewrite !Exists_cons, Exists_nil. tauto.
Qed.

(** C1, as the specification states it, fails: the lower-case condition
    rain contains the token Rain in some letter case, yet [scoreWeather]
    returns 10 for it, the score without the condition penalty, and not the
    8 that the penalty would give. *)
Lemma score_penalty_any_case_counterexample :
  containsAnyCase (js "Rain") (condition lowercaseRain)
  /\ scoreWeather lowercaseRain = 10%Z
  /\ Z.min 10 (Z.max 0 (weatherAdjusted lowercaseRain - 2)) = 8%Z
  /\ scoreWeather lowercaseRain
     <> Z.min 10 (Z.max 0 (weatherAdjusted lowercaseRain - 2)).
Proof.
  split; [|by vm_compute].
  exists [], (js "rain"), []. by vm_compute.
Qed.

(** C1 (amended): the condition penalty of 2 is applied whenever the
    primary condition contains Rain, Snow or Thunder written with exactly
    this capitalisation (a case-sensitive substring match): the score is
    then the clamped sum of the other adjustments minus 2. *)
Theorem score_penalty_case_sensitive (d : WeatherSnapshot) :
  contains (js "Rain") (condition d) \/ contains (js "Snow") (condition d)
  \/ contains (js "Thunder") (condition d) ->
  scoreWeather d = Z.min 10 (Z.max 0 (weatherAdjusted d - 2)).
Proof.
  intros H. apply conditionMatches_spec in H.
  unfold scoreWeather. by rewrite H.
Qed.

Lemma score_penalty_case_sensitive_witness :
  scoreWeather (Snapshot 22 45 3 (js "Thunderstorm")) = 8%Z.
Proof.
  rewrite (score_penalty_case_sensitive (Snapshot 22 45 3 (js "Thunderstorm"))).
  - reflexivity.
  - right; right. exists [], (js "storm"). reflexivity.
Defined.

(** Without such a substring no penalty is applied. *)
Lemma score_no_penalty (d : WeatherSnapshot) :
  ~ (contains (js "Rain") (condition d) \/ contains (js "Snow") (condition d)
     \/ contains (js "Thunder") (condition d)) ->
  scoreWeather d = Z.min 10 (Z.max 0 (weatherAdjusted d)).
Proof.
  intros H. unfold scoreWeather.
  destruct (conditionMatches (condition d)) eqn:E; [|done].
  by apply conditionMatches_spec in E.
Qed.

(** C2: for every snapshot the comfort score lies in the closed interval
    from 0 to 10: it is the sum of the base 5 and the applicable
    adjustments, clamped once at the end. *)
Theorem score_in_range (d : WeatherSnapshot) :
  (0 <= scoreWeather d <= 10)%Z
  /\ scoreWeather d = Z.min 10 (Z.max 0 (unclamped d)).
Proof.
  unfold scoreWeather, unclamped.
  destruct (conditionMatches (condition d)); split; lia.
Qed.

(** The sum itself never exceeds 10, and can fall below 0 only to -1. *)
Lemma unclamped_bounds (d : WeatherSnapshot) : (-1 <= unclamped d <= 10)%Z.
Proof.
  unfold unclamped, weatherAdjusted.
  repeat match goal with
         | |- context [if ?b then _ else _] => destruct b
         end; lia.
Qed.

Example score_clamped_below :
  unclamped (Snapshot 45 90 20 (js "Thunderstorm")) = (-1)%Z
  /\ scoreWeather (Snapshot 45 90 20 (js "Thunderstorm")) = 0%Z.
Proof. by vm_compute. Qed.

(** ** Smart alerts *)

Lemma alertText_inj (a b : smartAlert) : alertText a = alertText b -> a = b.
Proof. destruct a, b; intros H; first [reflexivity | discriminate H]. Qed.

(** C6: alert rules do not short-circuit each other.  For temperature 45,
    wind 20, humidity 90, condition Thunderstorm and AQI 5, whatever the
    score passed in, [getSmartAlerts] returns the six alerts extreme heat,
    strong wind, very high humidity, thunderstorm, poor air quality and
    hazardous air quality, in this order and pairwise distinct (followed
    by the fallback alert when the score is below 3); both air-quality
    alerts are present together. *)
Theorem alerts_do_not_short_circuit (score : Z) :
  exists alerts,
    getSmartAlerts stormySnapshot aqi5 score = Ok alerts
    /\ alerts = [ExtremeHeat; StrongWind; VeryHighHumidity; Thunderstorm;
                 PoorAir; HazardousAir]
                ++ (if (score <? 3)%Z then [Challenging] else [])
    /\ (6 <= length alerts)%nat
    /\ NoDup alerts
    /\ NoDup (alertText <$> alerts)
    /\ PoorAir ∈ alerts /\ HazardousAir ∈ alerts.
Proof.
  assert (Hrun : getSmartAlerts stormySnapshot aqi5 score
                 = Ok ([ExtremeHeat; StrongWind; VeryHighHumidity; Thunderstorm;
                        PoorAir; HazardousAir]
                       ++ (if (score <? 3)%Z then [Challenging] else []))).
  { unfold getSmartAlerts, pushIf. destruct (score <? 3)%Z; reflexivity. }
  eexists. split; [exact Hrun|]. split; [reflexivity|].
  assert (Hnd : NoDup ([ExtremeHeat; StrongWind; VeryHighHumidity; Thunderstorm;
                        PoorAir; HazardousAir]
                       ++ (if (score <? 3)%Z then [Challenging] else []))).
  { destruct (score <? 3)%Z; by apply (bool_decide_unpack _). }
  repeat split.
  - rewrite length_app. simpl. lia.
  - exact Hnd.
  - apply NoDup_fmap_2; [exact alertText_inj | exact Hnd].
  - set_solver.
  - set_solver.
Qed.

(** With the score the page computes for this snapshot, which is 0, the
    fallback alert is the seventh. *)
Example alerts_stormy_with_own_score :
  getSmartAlerts stormySnapshot aqi5 (scoreWeather stormySnapshot)
  = Ok [ExtremeHeat; StrongWind; VeryHighHumidity; Thunderstorm;
        PoorAir; HazardousAir; Challenging].
Proof. reflexivity. Qed.

(** ** Gear rules *)

(** C8: for temperature 5, condition Clear and UV 1 the gear list is exactly
    the one entry Coat/Jacket; for temperature 20, condition Clear and UV 1
    no rule fires and the list is exactly the fallback entry Comfortable
    Shoes. *)
Theorem gear_edge_cases :
  gear 5 (Some (js "Clear")) (Some 1%Q)
  = [ {| item := js "Coat/Jacket"; reason := js "Chilly temperatures" |} ]
  /\ gear 20 (Some (js "Clear")) (Some 1%Q)
     = [ {| item := js "Comfortable Shoes"; reason := js "Good for walking" |} ].
Proof. split; reflexivity. Qed.

(** ** Travel advice: the section scan *)

Lemma labelOf_key (line k r : jsstring) :
  labelOf line = Some (k, r) -> k ∈ labels.
Proof.
  unfold labelOf, execAnchored.
  destruct (run sectionRe init (trim line)) as [m|] eqn:E; [|done].
  intros [= <- _]. revert E. generalize (trim line) as s. intros s.
  unfold sectionRe. rewrite run_Open, run_Alt. intros H.
  apply tryAlts_inv in H as (w & s' & Hw & Hpre & H).
  rewrite run_Close in H.
  apply (run_caps_preserved 1) in H.
  2:{ repeat constructor; discriminate. }
  apply stripPrefix_folded in Hpre as (m0 & -> & Hm0).
  unfold group. rewrite H. unfold closeGroup, openGroup. simpl.
  rewrite length_app, Nat.add_sub, take_app_length. simpl.
  change (List.map upperChar m0) with (toUpperCase m0). rewrite Hm0.
  fold labels in Hw. unfold labels in *.
  repeat (apply elem_of_cons in Hw as [->|Hw]; [set_solver|]).
  by apply elem_of_nil in Hw.
Qed.

Lemma labelOf_nonblank (line : jsstring) :
  is_Some (labelOf line) -> nonEmpty (trim line) = true.
Proof.
  unfold labelOf. destruct (trim line); [|done].
  intros [? H]. by vm_compute in H.
Qed.

Lemma labels_nonEmpty (k : jsstring) : k ∈ labels -> nonEmpty k = true.
Proof.
  unfold labels. intros Hk.
  repeat (apply elem_of_cons in Hk as [->|Hk]; [done|]).
  by apply elem_of_nil in Hk.
Qed.

(** The three ways a line is handled. *)
Lemma scanLine_blank (st : scanState) (line : jsstring) :
  nonEmpty (trim line) = false -> scanLine st line = Ok st.
Proof. intros H. unfold scanLine. by rewrite H. Qed.

Lemma scanLine_label (st : scanState) (line k r : jsstring) :
  labelOf line = Some (k, r) ->
  scanLine st line = Ok (Scan (<[k := restLines r]> (sections st)) k).
Proof.
  intros H. unfold scanLine.
  rewrite (labelOf_nonblank line) by (rewrite H; eauto). simpl.
  unfold labelOf in H.
  destruct (execAnchored sectionRe (trim line)) as [m|]; [|done].
  by injection H as <- <-.
Qed.

Lemma scanLine_content (st : scanState) (line : jsstring) :
  nonEmpty (trim line) = true -> labelOf line = None ->
  scanLine st line =
    Ok (if nonEmpty (currentKey st)
        then Scan (<[currentKey st :=
                      default [] (sections st !! currentKey st) ++ [trim line]]>
                     (sections st))
                  (currentKey st)
        else st).
Proof.
  intros Hne H. unfold scanLine. rewrite Hne. simpl.
  unfold labelOf in H.
  destruct (execAnchored sectionRe (trim line)) as [m|]; [done|].
  destruct (nonEmpty (currentKey st)); [|done].
  rewrite lookup_insert_eq. simpl. by rewrite insert_insert_eq.
Qed.

(** No line makes the scan throw. *)
Lemma scanLine_total (st : scanState) (line : jsstring) :
  exists st', scanLine st line = Ok st'.
Proof.
  destruct (nonEmpty (trim line)) eqn:Hne.
  - destruct (labelOf line) as [[k r]|] eqn:Hl.
    + rewrite (scanLine_label _ _ _ _ Hl). eauto.
    + rewrite (scanLine_content _ _ Hne Hl). eauto.
  - rewrite (scanLine_blank _ _ Hne). eauto.
Qed.

Lemma scanLines_total (lines : list jsstring) (st : scanState) :
  exists st', scanLines st lines = Ok st'.
Proof.
  revert st; induction lines as [|l ls IH]; intros st; simpl; [eauto|].
  destruct (scanLine_total st l) as [st1 ->]. simpl. apply IH.
Qed.

Lemma scanLines_app (a b : list jsstring) (st : scanState) :
  scanLines st (a ++ b) = (st' ← scanLines st a; scanLines st' b).
Proof.
  revert st; induction a as [|l a IH]; intros st; simpl; [done|].
  destruct (scanLine st l) as [st1|e]; simpl; [apply IH | done].
Qed.

(** Before the first label line nothing is recorded. *)
Lemma scanLines_no_label (lines : list jsstring) :
  Forall (fun l => labelOf l = None) lines ->
  scanLines scanInit lines = Ok scanInit.
Proof.
  induction 1 as [|l ls Hl _ IH]; simpl; [done|].
  destruct (nonEmpty (trim l)) eqn:Hne.
  - rewrite (scanLine_content _ _ Hne Hl). simpl. exact IH.
  - rewrite (scanLine_blank _ _ Hne). simpl. exact IH.
Qed.

(** While another section is current, and no label line of [k] comes, the
    section of [k] stays as it is. *)
Lemma scanLines_other (k : jsstring) (lines : list jsstring) :
  Forall (fun l => forall r, labelOf l <> Some (k, r)) lines ->
  forall st, currentKey st <> k ->
  exists st', scanLines st lines = Ok st'
              /\ sections st' !! k = sections st !! k.
Proof.
  induction 1 as [|l ls Hl _ IH]; intros st Hcur; simpl; [eauto|].
  destruct (nonEmpty (trim l)) eqn:Hne.
  - destruct (labelOf l) as [[k' r]|] eqn:Hlab.
    + rewrite (scanLine_label _ _ _ _ Hlab). simpl.
      assert (k' <> k) by (intros ->; by eapply Hl).
      destruct (IH (Scan (<[k':=restLines r]> (sections st)) k')) as (st' & -> & Hk);
        [done|].
      exists st'. split; [done|]. rewrite Hk. simpl. by rewrite lookup_insert_ne.
    + rewrite (scanLine_content _ _ Hne Hlab). simpl.
      destruct (nonEmpty (currentKey st)).
      * edestruct IH as (st' & -> & Hk); [|eexists; split; [done|]].
        2:{ rewrite Hk. simpl. by rewrite lookup_insert_ne. }
        done.
      * by apply IH.
  - rewrite (scanLine_blank _ _ Hne). simpl. by apply IH.
Qed.

(** While [k] is current, the following lines are appended to its section up
    to the next label line. *)
Lemma scanLines_current (k : jsstring) (lines : list jsstring) :
  nonEmpty k = true ->
  Forall (fun l => forall r, labelOf l <> Some (k, r)) lines ->
  forall st c, currentKey st = k -> sections st !! k = Some c ->
  exists st', scanLines st lines = Ok st'
              /\ sections st' !! k = Some (c ++ contentUntilLabel lines).
Proof.
  intros Hk. induction 1 as [|l ls Hl Hls IH]; intros st c Hcur Hsec; simpl.
  { exists st. by rewrite app_nil_r. }
  destruct (nonEmpty (trim l)) eqn:Hne; simpl.
  - destruct (labelOf l) as [[k' r]|] eqn:Hlab.
    + rewrite (scanLine_label _ _ _ _ Hlab). simpl.
      assert (k' <> k) by (intros ->; by eapply Hl).
      destruct (scanLines_other k ls Hls
                  (Scan (<[k':=restLines r]> (sections st)) k'))
        as (st' & -> & Hst'); [done|].
      exists st'. split; [done|].
      rewrite Hst', app_nil_r. simpl. by rewrite lookup_insert_ne.
    + rewrite (scanLine_content _ _ Hne Hlab). simpl.
      rewrite Hcur, Hk, Hsec. simpl.
      destruct (IH (Scan (<[k:=c ++ [trim l]]> (sections st)) k) (c ++ [trim l]))
        as (st' & -> & Hst'); [done | apply lookup_insert_eq |].
      exists st'. split; [done|]. by rewrite Hst', <- app_assoc.
  - rewrite (scanLine_blank _ _ Hne). simpl. by apply IH.
Qed.

(** ** Travel advice: the parsed document *)

(** C3: the sample advice text parses to one place (Eiffel Tower, Iconic
    landmark), one nearby escape (Versailles, 20km, royal palace), WEAR
    Light jacket, EAT Croissant at a cafe and ALERT None; the tip list
    that is displayed holds the WEAR and EAT tips only, the ALERT value
    None being filtered out. *)
Theorem advice_sample_parsed :
  renderTravelAdvice adviceSample
  = Ok (adviceSampleDocument,
        [ {| icon := IconWear; text := js "Light jacket" |};
          {| icon := IconEat; text := js "Croissant at a cafe" |} ])
  /\ isNone (alert adviceSampleDocument) = true
  /\ isNone (js "NONE.") = true.
Proof. by vm_compute. Qed.

(** C4: the advice parser returns a document for every input text, never
    an exception; when no line of the text is a label line, every section
    of that document is empty and no tip is displayed. *)
Theorem parseAdvice_total (raw : jsstring) :
  (exists doc, parseAdvice raw = Ok doc
               /\ renderTravelAdvice raw = Ok (doc, tips doc))
  /\ (Forall (fun l => labelOf l = None) (split nl raw) ->
      parseAdvice raw = Ok emptyDocument
      /\ renderTravelAdvice raw = Ok (emptyDocument, [])).
Proof.
  unfold renderTravelAdvice, parseAdvice, parseSections. split.
  - destruct (scanLines_total (split nl raw) scanInit) as [st ->]. simpl. eauto.
  - intros H. rewrite (scanLines_no_label _ H). simpl. done.
Qed.

Lemma parseAdvice_total_witness :
  parseAdvice (join [nl] [js "Sunny all week."; js "Bring: nothing special"; []])
  = Ok emptyDocument.
Proof.
  apply (parseAdvice_total
           (join [nl] [js "Sunny all week."; js "Bring: nothing special"; []])).
  repeat constructor.
Defined.

(** C10: when a label line of a section is followed by no further label
    line of the same section, the section holds exactly the rest of that
    label line (when not empty) and the lines attributed after it; whatever
    the text before that line put into the section, under earlier
    occurrences of the label, is discarded.  In particular a label line with
    an empty rest and no content after it leaves the section empty. *)
Theorem repeated_label_keeps_last
    (raw : jsstring) (before after : list jsstring) (line k r : jsstring) :
  split nl raw = before ++ line :: after ->
  labelOf line = Some (k, r) ->
  Forall (fun l => forall r', labelOf l <> Some (k, r')) after ->
  exists st,
    parseSections raw = Ok st
    /\ sections st !! k = Some (restLines r ++ contentUntilLabel after)
    /\ (r = [] -> contentUntilLabel after = [] -> sections st !! k = Some []).
Proof.
  intros Hsplit Hlab Hafter. unfold parseSections.
  rewrite Hsplit, scanLines_app.
  destruct (scanLines_total before scanInit) as [st0 ->]. simpl.
  rewrite (scanLine_label _ _ _ _ Hlab). simpl.
  destruct (scanLines_current k after
              (labels_nonEmpty _ (labelOf_key _ _ _ Hlab)) Hafter
              (Scan (<[k:=restLines r]> (sections st0)) k) (restLines r))
    as (st & Hst & Hk); [done | apply lookup_insert_eq |].
  exists st. split; [done|]. split; [done|].
  intros -> Hc. by rewrite Hk, Hc.
Qed.

Lemma repeated_label_keeps_last_witness :
  exists st,
    parseSections
      (join [nl] [ js "WEAR: Heavy coat"; js "and a scarf";
                   js "wear: Light jacket"; js "sandals";
                   js "EAT: Soup"; js "bread" ]) = Ok st
    /\ sections st !! js "WEAR" = Some [js "Light jacket"; js "sandals"].
Proof.
  destruct (repeated_label_keeps_last
              (join [nl] [ js "WEAR: Heavy coat"; js "and a scarf";
                           js "wear: Light jacket"; js "sandals";
                           js "EAT: Soup"; js "bread" ])
              [js "WEAR: Heavy coat"; js "and a scarf"]
              [js "sandals"; js "EAT: Soup"; js "bread"]
              (js "wear: Light jacket") (js "WEAR") (js "Light jacket"))
    as (st & Hst & Hk & _).
  - reflexivity.
  - reflexivity.
  - repeat constructor; intros r'; vm_compute; discriminate.
  - exists st. split; [exact Hst | exact Hk].
Defined.

(** A repeated label line with nothing after the colon empties the section. *)
Example repeated_label_resets :
  exists st,
    parseSections (join [nl] [js "EAT: Soup"; js "bread"; js "EAT:"]) = Ok st
    /\ sections st !! js "EAT" = Some [].
Proof. eexists. split; [reflexivity|]. by vm_compute. Qed.

(** The place pattern on a few lines: the lazy name stops at the first
    dash that lets the rest match, an en dash separates as well, emphasis
    stars are removed, a line without a dash is all name, and a bare
    number is dropped. *)
Example parsePlace_first_dash :
  parsePlace (js "1. A-B - C") = Some {| name := js "A"; desc := js "B - C" |}.
Proof. reflexivity. Qed.

Example parsePlace_en_dash :
  parsePlace (js "2. **Louvre** " ++ [enDash] ++ js " Art museum")
  = Some {| name := js "Louvre"; desc := js "Art museum" |}.
Proof. reflexivity. Qed.

Example parsePlace_name_only :
  parsePlace (js "3. Montmartre") = Some {| name := js "Montmartre"; desc := [] |}.
Proof. reflexivity. Qed.

Example parsePlace_dropped : parsePlace (js "4. **") = None.
Proof. reflexivity. Qed.

(** Lines that end in a carriage return parse to the same document. *)
Example advice_sample_crlf :
  parseAdvice (join [13; nl] (split nl adviceSample)) = Ok adviceSampleDocument.
Proof. by vm_compute. Qed.

(** An ALERT that is a real warning is displayed. *)
Example advice_alert_displayed :
  snd <$> (match renderTravelAdvice (js "ALERT: Carry water.") with
           | Ok r => Some r
           | Throw _ => None
           end)
  = Some [ {| icon := IconAlert; text := js "Carry water." |} ].
Proof. by vm_compute. Qed.

(** ** Comparison verdict *)

Lemma replaceNewlines_no_newline (s : jsstring) :
  nl ∉ s -> replaceNewlines s = s.
Proof.
  unfold replaceNewlines. induction s as [|c s IH]; simpl; [done|].
  intros Hn. apply not_elem_of_cons in Hn as [Hc Hs].
  destruct (N.eqb_spec c nl) as [->|_]; [done|].
  simpl. by rewrite IH.
Qed.

(** A pattern that begins with a literal finds nothing in a text in which
    the literal does not occur. *)
Lemma exec_literal_absent (w : jsstring) (pat : list atom) (s : jsstring) :
  ~ contains w s -> exec (Lit w :: pat) s = None.
Proof.
  assert (Hrun : forall s, ~ contains w s -> run (Lit w :: pat) init s = None).
  { intros s0 Hn. unfold Lit. rewrite run_Alt.
    destruct (tryAlts _ false [w] s0) as [r|] eqn:E; [|done].
    apply tryAlts_inv in E as (w' & s' & Hw & Hp & _).
    apply list_elem_of_singleton in Hw as ->.
    apply stripPrefix_exact in Hp. destruct Hn. by exists [], s'. }
  induction s as [|c s IH]; intros Hn.
  - rewrite exec_nil, (Hrun _ Hn). done.
  - rewrite exec_cons, (Hrun _ Hn). apply IH.
    intros (pre & post & ->). apply Hn. by exists (c :: pre), post.
Qed.

Lemma winnerOf_without_label (raw : jsstring) :
  ~ contains (js "WINNER:") raw -> winnerOf raw = [].
Proof.
  intros H. unfold winnerOf, field, winRe.
  by rewrite (exec_literal_absent _ _ _ H).
Qed.

(** C9: when the WINNER label does not resolve to a non-empty string,
    [renderVerdict] shows the complete raw text (its newlines turned into
    line breaks) and none of the parsed fields; when it does resolve, the
    structured view with comparison, winner and reason is shown. *)
Theorem verdict_raw_fallback (raw nameA nameB : jsstring) :
  (winnerOf raw = [] ->
   renderVerdict raw nameA nameB = RawText (replaceNewlines raw))
  /\ (winnerOf raw <> [] ->
      renderVerdict raw nameA nameB
      = Structured (comparisonOf raw) (winnerOf raw) (reasonOf raw)).
Proof.
  unfold renderVerdict. split; intros H.
  - by rewrite H.
  - destruct (winnerOf raw); [done|reflexivity].
Qed.

Lemma verdict_raw_fallback_witness :
  renderVerdict (js "WINNER:   ") (js "Paris") (js "Rome")
  = RawText (js "WINNER:   ")
  /\ renderVerdict
       (join [nl] [ js "COMPARISON: Both are mild."; js "WINNER: Paris";
                    js "REASON: Cleaner air." ])
       (js "Paris") (js "Rome")
     = Structured (js "Both are mild.") (js "Paris") (js "Cleaner air.").
Proof.
  split.
  - apply (verdict_raw_fallback (js "WINNER:   ") (js "Paris") (js "Rome")).
    reflexivity.
  - apply (verdict_raw_fallback
             (join [nl] [ js "COMPARISON: Both are mild."; js "WINNER: Paris";
                          js "REASON: Cleaner air." ])
             (js "Paris") (js "Rome")).
    discriminate.
Defined.

(** X28: a text without the WINNER label is shown raw. *)
Lemma verdict_without_winner_label (raw nameA nameB : jsstring) :
  ~ contains (js "WINNER:") raw ->
  renderVerdict raw nameA nameB = RawText (replaceNewlines raw).
Proof.
  intros H. unfold renderVerdict. by rewrite (winnerOf_without_label _ H).
Qed.

(** ** Response cache *)



(** A key that was never set, or whose entry has been deleted, is absent. *)
Lemma getCached_absent (aiCache : gmap jsstring entry) (key : jsstring) now :
  aiCache !! key = None -> getCached now key aiCache = (None, aiCache).
Proof. intros H. unfold getCached. by rewrite H. Qed.

(** ** Cache keys of the compare endpoint *)





(** * Further properties of the code *)

(** ** Comparisons of rationals *)

Lemma Qleb_spec (x y : Q) : reflect (x <= y)%Q (Qleb x y).
Proof.
  unfold Qleb. destruct (Qle_bool x y) eqn:E; constructor.
  - by apply Qle_bool_iff.
  - intros H. apply Qle_bool_iff in H. congruence.
Qed.

Lemma Qltb_spec (x y : Q) : reflect (x < y)%Q (Qltb x y).
Proof.
  unfold Qltb. destruct (Qle_bool y x) eqn:E; constructor.
  - apply Qle_bool_iff in E. by apply Qle_not_lt.
  - apply Qnot_le_lt. intros H. apply Qle_bool_iff in H. congruence.
Qed.

(** Decide every comparison in sight, dropping the cases that cannot be. *)
Ltac qcases :=
  unfold Qgeb, Qgtb in *;
  repeat match goal with
         | |- context [Qleb ?x ?y] =>
             destruct (Qleb_spec x y); try (exfalso; lra)
         | |- context [Qltb ?x ?y] =>
             destruct (Qltb_spec x y); try (exfalso; lra)
         end;
  simpl.

(** ** Comfort score: the extremes and the condition penalty *)

Lemma conditionMatches_stormy (c : jsstring) :
  conditionMatches c = true <-> stormy c.
Proof. apply conditionMatches_spec. Qed.

Lemma conditionMatches_not_stormy (c : jsstring) :
  conditionMatches c = false <-> ~ stormy c.
Proof.
  rewrite <- conditionMatches_stormy.
  destruct (conditionMatches c); split; congruence.
Qed.

(** X1: the score is 10 exactly in the comfort band: temperature from 18 to 26,
    humidity from 30 to 60, and a condition without Rain, Snow or Thunder. *)
Theorem score_is_10_iff (d : WeatherSnapshot) :
  scoreWeather d = 10%Z
  <-> (18 <= temp d <= 26)%Q /\ (30 <= humidity d <= 60)%Q
      /\ ~ stormy (condition d).
Proof.
  rewrite <- conditionMatches_not_stormy.
  unfold scoreWeather, weatherAdjusted.
  destruct (conditionMatches (condition d)); qcases;
    (split; [intros H; first [lia | repeat split; first [done | lra]]
            | intros (? & ? & ?); first [done | lia | lra]]).
Qed.

(** X2: the score is 0 exactly when the temperature is above 35 or below 0, the
    humidity is outside 30 to 60, and the condition carries Rain, Snow or
    Thunder. *)
Theorem score_is_0_iff (d : WeatherSnapshot) :
  scoreWeather d = 0%Z
  <-> ((35 < temp d)%Q \/ (temp d < 0)%Q)
      /\ ~ (30 <= humidity d <= 60)%Q
      /\ stormy (condition d).
Proof.
  rewrite <- conditionMatches_stormy.
  unfold scoreWeather, weatherAdjusted.
  destruct (conditionMatches (condition d)); qcases;
    (split; [intros H; first [lia | repeat split; try done;
                              first [left; lra | right; lra | intros [? ?]; lra]]
            | intros ([?|?] & Hh & ?);
              first [done | lia | lra | exfalso; apply Hh; split; lra]]).
Qed.

(** X3: at the same temperature and humidity, and whatever the wind, a
    condition with Rain, Snow or Thunder scores strictly less than a
    condition without, by at most 2. *)
Theorem score_condition_penalty_strict
    (t h w w' : Q) (c c' : jsstring) :
  stormy c -> ~ stormy c' ->
  (scoreWeather (Snapshot t h w c) < scoreWeather (Snapshot t h w' c')
   <= scoreWeather (Snapshot t h w c) + 2)%Z.
Proof.
  intros Hc Hc'.
  apply conditionMatches_stormy in Hc. apply conditionMatches_not_stormy in Hc'.
  unfold scoreWeather, weatherAdjusted. simpl. rewrite Hc, Hc'.
  qcases; lia.
Qed.

Lemma score_condition_penalty_strict_witness :
  (scoreWeather (Snapshot 22 45 3 (js "Rain"))
   < scoreWeather (Snapshot 22 45 9 (js "Clear")))%Z.
Proof.
  apply (score_condition_penalty_strict 22 45 3 9 (js "Rain") (js "Clear")).
  - left. by exists [], [].
  - apply conditionMatches_not_stormy. reflexivity.
Defined.

(** ** Advice lines *)

(** X4: [generateAdvice] never returns an empty list and never more than two
    lines; called with the score of the same snapshot, as the page does, it
    returns exactly one line. *)
Theorem advice_one_line (d : WeatherSnapshot) :
  (forall score, (1 <= length (generateAdvice d score) <= 2)%nat)
  /\ length (generateAdvice d (scoreWeather d)) = 1%nat.
Proof.
  split.
  - intros score. unfold generateAdvice, pushIf.
    destruct (score >? 8)%Z; qcases; lia.
  - unfold generateAdvice, pushIf, scoreWeather, weatherAdjusted.
    destruct (conditionMatches (condition d)); qcases;
      repeat match goal with
             | |- context [(?a >? ?b)%Z] => destruct (Z.gtb_spec a b)
             end; simpl; first [reflexivity | lia].
Qed.

(** ** Matching one word in any letter case *)

Lemma upper_lower_char (a c : N) :
  upperChar a = upperChar c <-> lowerChar a = lowerChar c.
Proof.
  unfold upperChar, lowerChar, inRange.
  repeat match goal with
         | |- context [(?x <=? ?y)] => destruct (N.leb_spec x y)
         end; simpl; lia.
Qed.

Lemma upper_lower (m w : jsstring) :
  toUpperCase m = toUpperCase w <-> toLowerCase m = toLowerCase w.
Proof.
  unfold toUpperCase, toLowerCase.
  revert w; induction m as [|a m IH]; intros [|c w]; simpl; try done.
  split; intros [= H1 H2]; f_equal;
    first [by apply upper_lower_char | by apply IH].
Qed.

Lemma stripPrefix_folded_iff (w s : jsstring) :
  is_Some (stripPrefix (eqChar true) w s)
  <-> exists m post, s = m ++ post /\ toLowerCase m = toLowerCase w.
Proof.
  split.
  - intros [s' H]. apply stripPrefix_folded in H as (m & -> & Hm).
    exists m, s'. split; [done|]. by apply upper_lower.
  - intros (m & post & -> & Hm). apply upper_lower in Hm.
    revert m Hm; induction w as [|a w IH]; intros m Hm; simpl; [eauto|].
    destruct m as [|c m]; [done|]. injection Hm as Hc Hm. simpl.
    rewrite Hc, N.eqb_refl. by apply IH.
Qed.

(** A search succeeds exactly when the pattern matches at the start of some
    suffix of the input. *)
Lemma exec_is_Some (pat : list atom) (s : jsstring) :
  is_Some (exec pat s)
  <-> exists pre post, s = pre ++ post /\ is_Some (run pat init post).
Proof.
  induction s as [|c s IH].
  - rewrite exec_nil. split.
    + intros H. by exists [], [].
    + intros (pre & post & H & Hr). symmetry in H.
      apply app_eq_nil in H as [_ ->]. done.
  - rewrite exec_cons. destruct (run pat init (c :: s)) as [r|] eqn:E.
    + split; [intros _ | eauto]. exists [], (c :: s). rewrite E. eauto.
    + rewrite IH. split.
      * intros (pre & post & -> & Hr). by exists (c :: pre), post.
      * intros ([|c' pre] & post & H & Hr); simpl in H.
        -- subst post. rewrite E in Hr. by destruct Hr.
        -- injection H as -> ->. by exists pre, post.
Qed.

Lemma testCI_spec (w s : jsstring) :
  testCI w s = true <-> containsAnyCase w s.
Proof.
  unfold testCI, containsAnyCase. rewrite bool_decide_eq_true, exec_is_Some.
  split.
  - intros (pre & post & -> & Hr). rewrite run_Alt in Hr.
    change (run [] init) with (fun s' : jsstring => Some (init, s')) in Hr.
    apply tryAlts_is_Some in Hr. rewrite Exists_cons, Exists_nil in Hr.
    destruct Hr as [Hr|[]].
    apply stripPrefix_folded_iff in Hr as (m & post' & -> & Hm).
    by exists pre, m, post'.
  - intros (pre & mid & post & -> & Hm). exists pre, (mid ++ post).
    split; [done|]. rewrite run_Alt.
    change (run [] init) with (fun s' : jsstring => Some (init, s')).
    apply tryAlts_is_Some. left. apply stripPrefix_folded_iff. eauto.
Qed.

(** ** Smart alerts: which rules fire *)

Lemma elem_of_pushIf {A} (b : bool) (x a : A) (l : list A) :
  a ∈ pushIf b x l <-> a ∈ l \/ (b = true /\ a = x).
Proof.
  unfold pushIf. destruct b.
  - rewrite elem_of_app, list_elem_of_singleton. naive_solver.
  - naive_solver.
Qed.

Lemma pushIf_sublist {A} (b : bool) (x : A) (l r : list A) :
  sublist l r -> sublist (pushIf b x l) (r ++ [x]).
Proof.
  intros H. unfold pushIf. destruct b.
  - by apply sublist_app.
  - rewrite <- (app_nil_r l). apply sublist_app; [done|]. by apply sublist_nil_l.
Qed.


Lemma Qltb_true (x y : Q) : Qltb x y = true <-> (x < y)%Q.
Proof. destruct (Qltb_spec x y); split; first [done | congruence]. Qed.

Lemma Qltb_false (x y : Q) : Qltb x y = false <-> (y <= x)%Q.
Proof.
  destruct (Qltb_spec x y); split; try done; try congruence.
  - intros H. lra.
  - intros _. lra.
Qed.

Lemma Qleb_true (x y : Q) : Qleb x y = true <-> (x <= y)%Q.
Proof. destruct (Qleb_spec x y); split; first [done | congruence]. Qed.

Lemma elem_of_if_push {A} (b b' : bool) (x y a : A) (l : list A) :
  a ∈ (if b then l ++ [x] else pushIf b' y l)
  <-> a ∈ l \/ (b = true /\ a = x) \/ (b = false /\ b' = true /\ a = y).
Proof.
  destruct b.
  - rewrite elem_of_app, list_elem_of_singleton. naive_solver.
  - rewrite elem_of_pushIf. naive_solver.
Qed.

Lemma elem_of_if_push_nil {A} (b b' : bool) (x y a : A) :
  a ∈ (if b then [x] else pushIf b' y [])
  <-> (b = true /\ a = x) \/ (b = false /\ b' = true /\ a = y).
Proof.
  rewrite (elem_of_if_push b b' x y a []), elem_of_nil. naive_solver.
Qed.

Lemma alerts_member (d : WeatherSnapshot) (aqiData : option AqiData)
    (score : Z) (alerts : list smartAlert) :
  getSmartAlerts d aqiData score = Ok alerts ->
  forall a, a ∈ alerts <-> fires d (firstAqi aqiData) score a.
Proof.
  unfold getSmartAlerts.
  destruct aqiData as [[[[|q l]|]]|]; simpl; try done.
  all: intros [= <-] a.
  all: rewrite !elem_of_pushIf, elem_of_if_push, !elem_of_if_push_nil.
  all: unfold Qgtb, Qgeb.
  all: rewrite ?andb_true_iff, ?testCI_spec, ?Qltb_true, ?Qltb_false, ?Qleb_true,
         ?Z.ltb_lt.
  all: destruct a; simpl; naive_solver (first [lra | lia | eauto]).
Qed.

(** X5: for each of the twelve alerts: it is in the list [getSmartAlerts]
    returns exactly when its rule fires (the temperature band, the wind or
    humidity threshold, the condition word in any letter case, the index of
    the first air-quality entry, the score). *)
Theorem alerts_fire_exactly (d : WeatherSnapshot) (aqiData : option AqiData)
    (score : Z) (alerts : list smartAlert) (a : smartAlert) :
  getSmartAlerts d aqiData score = Ok alerts ->
  (a ∈ alerts <-> fires d (firstAqi aqiData) score a).
Proof. intros H. by apply alerts_member. Qed.

Lemma alerts_fire_exactly_witness :
  (HeavyRainWind ∉ [ColdAdvisory])
  /\ ~ fires (Snapshot 3 50 5 (js "Rain")) None 6 HeavyRainWind.
Proof.
  assert (H : HeavyRainWind ∈ [ColdAdvisory]
              <-> fires (Snapshot 3 50 5 (js "Rain")) None 6 HeavyRainWind).
  { apply (alerts_fire_exactly (Snapshot 3 50 5 (js "Rain")) None 6).
    reflexivity. }
  assert (Hn : HeavyRainWind ∉ [ColdAdvisory]) by (by apply (bool_decide_unpack _)).
  split; [exact Hn|]. intros Hf. apply Hn, H, Hf.
Defined.

Lemma if_push_sublist {A} (b b' : bool) (x y : A) (l r : list A) :
  sublist l r ->
  sublist (if b then l ++ [x] else pushIf b' y l) (r ++ [x; y]).
Proof.
  intros H. destruct b.
  - apply sublist_app; [done|]. apply sublist_skip, sublist_cons. constructor.
  - change [x; y] with ([x] ++ [y]). rewrite app_assoc.
    apply pushIf_sublist. by apply sublist_inserts_r.
Qed.

(** X6: the alerts come in the order of the rule table, each at most once. *)
Theorem alerts_in_rule_order (d : WeatherSnapshot) (aqiData : option AqiData)
    (score : Z) (alerts : list smartAlert) :
  getSmartAlerts d aqiData score = Ok alerts ->
  sublist alerts ruleOrder /\ NoDup alerts.
Proof.
  intros H.
  assert (Hsub : sublist alerts ruleOrder).
  { assert (Hr : ruleOrder
                 = (((((((((([] ++ [ExtremeHeat; HighHeat])
                            ++ [SevereCold; ColdAdvisory]) ++ [StrongWind])
                          ++ [VeryHighHumidity]) ++ [Thunderstorm])
                        ++ [Snowfall]) ++ [HeavyRainWind]) ++ [PoorAir])
                     ++ [HazardousAir]) ++ [Challenging])) by reflexivity.
    revert H. unfold getSmartAlerts.
    destruct aqiData as [[[[|q l]|]]|]; simpl; try done.
    all: intros [= <-].
    all: rewrite Hr.
    all: apply pushIf_sublist.
    all: first [ do 2 apply pushIf_sublist | do 2 apply sublist_inserts_r ].
    all: do 5 apply pushIf_sublist.
    all: apply if_push_sublist.
    all: apply (if_push_sublist _ _ _ _ [] []), sublist_nil_l. }
  split; [exact Hsub|].
  eapply sublist_NoDup; [|exact Hsub]. by apply (bool_decide_unpack _).
Qed.

Lemma alerts_in_rule_order_witness :
  sublist [ColdAdvisory; Snowfall] ruleOrder.
Proof.
  apply (alerts_in_rule_order (Snapshot 3 50 5 (js "Snow")) None 6).
  reflexivity.
Defined.



(** X8: at most one of the four temperature alerts is raised, and the
    hazardous-air alert never comes without the poor-air alert. *)
Theorem alerts_exclusive (d : WeatherSnapshot) (aqiData : option AqiData)
    (score : Z) (alerts : list smartAlert) :
  getSmartAlerts d aqiData score = Ok alerts ->
  (forall a b, a ∈ temperatureAlerts -> b ∈ temperatureAlerts ->
               a ∈ alerts -> b ∈ alerts -> a = b)
  /\ (HazardousAir ∈ alerts -> PoorAir ∈ alerts).
Proof.
  intros H. pose proof (alerts_member _ _ _ _ H) as Hm. split.
  - intros a b Ha Hb Hia Hib. apply Hm in Hia, Hib.
    unfold temperatureAlerts in *.
    repeat (apply elem_of_cons in Ha as [->|Ha]);
      try (by apply elem_of_nil in Ha);
      repeat (apply elem_of_cons in Hb as [->|Hb]);
      try (by apply elem_of_nil in Hb);
      simpl in *; first [reflexivity | exfalso; lra].
  - intros Hh. apply Hm in Hh as (q & Hq & Hge). apply Hm.
    exists q. split; [done|]. lra.
Qed.

Lemma alerts_exclusive_witness :
  PoorAir ∈ [ExtremeHeat; PoorAir; HazardousAir].
Proof.
  apply (alerts_exclusive (Snapshot 41 50 5 (js "Clear"))
           (Some {| aqiList := Some [5%Q] |}) 6).
  - reflexivity.
  - by apply (bool_decide_unpack _).
Defined.




Lemma score_is_10_iff_witness :
  scoreWeather (Snapshot 22 45 0 (js "Clear")) = 10%Z.
Proof.
  apply (score_is_10_iff (Snapshot 22 45 0 (js "Clear"))). simpl.
  repeat split; try lra. apply conditionMatches_not_stormy. reflexivity.
Defined.

Lemma score_is_0_iff_witness :
  scoreWeather (Snapshot 41 90 0 (js "Thunderstorm")) = 0%Z.
Proof.
  apply (score_is_0_iff (Snapshot 41 90 0 (js "Thunderstorm"))). simpl.
  repeat split.
  - left. lra.
  - intros [_ H]. lra.
  - apply conditionMatches_stormy. reflexivity.
Defined.

(** ** Gear rules: what is recommended, and in which order *)

Lemma includes_spec (w s : jsstring) : includes w s = true <-> contains w s.
Proof.
  induction s as [|c s IH]; simpl.
  - destruct (stripPrefix N.eqb w []) as [s'|] eqn:E.
    + split; [intros _ | done]. apply stripPrefix_exact in E. by exists [], s'.
    + split; [done|]. intros ([|] & post & H); simpl in H; [|done].
      apply stripPrefix_exact in H. congruence.
  - destruct (stripPrefix N.eqb w (c :: s)) as [s'|] eqn:E.
    + split; [intros _ | done]. apply stripPrefix_exact in E. by exists [], s'.
    + rewrite IH. split.
      * intros (pre & post & ->). by exists (c :: pre), post.
      * intros ([|c' pre] & post & H); simpl in H.
        -- apply stripPrefix_exact in H. congruence.
        -- injection H as -> ->. by exists pre, post.
Qed.

Lemma includes_false (w s : jsstring) : includes w s = false <-> ~ contains w s.
Proof.
  rewrite <- includes_spec. destruct (includes w s); split; congruence.
Qed.

Lemma sunnyb_spec (uv : option Q) : sunnyb uv = true <-> sunny uv.
Proof.
  unfold sunnyb, sunny, Qgtb. destruct uv as [u|].
  - rewrite andb_true_iff, negb_true_iff, Qltb_true. split.
    + intros [_ H]. eauto.
    + intros (u' & [= <-] & H). split; [|done].
      destruct (Qeq_bool u 0) eqn:E; [|done].
      apply Qeq_bool_iff in E. lra.
  - split; [done|]. by intros (u' & [=] & _).
Qed.

Lemma rainyb_spec (c : option jsstring) : rainyb c = true <-> rainy c.
Proof.
  unfold rainyb, rainy. simpl.
  rewrite !orb_true_iff, !includes_spec. tauto.
Qed.

Lemma snowyb_spec (c : option jsstring) : snowyb c = true <-> snowy c.
Proof. apply includes_spec. Qed.

Lemma gear_unfold (t : Q) (condition : option jsstring) (uv : option Q) :
  gear t condition uv
  = let g := gearRules t condition uv in
    if (length g =? 0)%nat then g ++ [shoes] else g.
Proof. destruct uv; reflexivity. Qed.

Lemma gearRules_member (t : Q) (condition : option jsstring) (uv : option Q)
    (x : GearItem) :
  x ∈ gearRules t condition uv
  <-> (sunny uv /\ (x = sunscreen \/ x = hat))
      \/ (rainy condition /\ x = umbrella)
      \/ (snowy condition /\ x = boots)
      \/ ((t < 15)%Q /\ x = coat)
      \/ ((30 < t)%Q /\ x = waterBottle).
Proof.
  unfold gearRules. rewrite elem_of_if_push, !elem_of_pushIf.
  unfold Qgtb. rewrite rainyb_spec, snowyb_spec, Qltb_true, Qltb_true, Qltb_false.
  rewrite <- sunnyb_spec. destruct (sunnyb uv).
  - rewrite !elem_of_cons, elem_of_nil. naive_solver lra.
  - rewrite elem_of_nil. naive_solver lra.
Qed.

Lemma gearRules_sublist (t : Q) (condition : option jsstring) (uv : option Q) :
  sublist (gearRules t condition uv)
          [sunscreen; hat; umbrella; boots; coat; waterBottle].
Proof.
  unfold gearRules.
  change [sunscreen; hat; umbrella; boots; coat; waterBottle]
    with ((([sunscreen; hat] ++ [umbrella]) ++ [boots]) ++ [coat; waterBottle]).
  apply if_push_sublist. do 2 apply pushIf_sublist.
  destruct (sunnyb uv); [done | apply sublist_nil_l].
Qed.

Lemma gear_member (t : Q) (condition : option jsstring) (uv : option Q)
    (x : GearItem) :
  x ∈ gear t condition uv
  <-> x ∈ gearRules t condition uv
      \/ (gearRules t condition uv = [] /\ x = shoes).
Proof.
  rewrite gear_unfold. cbv zeta. destruct (gearRules t condition uv) as [|g gs].
  - simpl. rewrite list_elem_of_singleton, elem_of_nil. naive_solver.
  - simpl. naive_solver.
Qed.

(** X10: the gear list is never empty, holds no entry twice, and lists its
    entries in the order of the rules: sunscreen, hat, umbrella, boots,
    coat or water bottle, and the fallback shoes. *)
Theorem gear_in_rule_order (t : Q) (condition : option jsstring) (uv : option Q) :
  gear t condition uv <> []
  /\ sublist (gear t condition uv) gearOrder
  /\ NoDup (gear t condition uv).
Proof.
  assert (Hsub : sublist (gear t condition uv) gearOrder).
  { rewrite gear_unfold. cbv zeta.
    pose proof (gearRules_sublist t condition uv) as H.
    destruct (gearRules t condition uv) as [|g gs]; simpl.
    - do 6 apply sublist_cons. apply sublist_skip, sublist_nil.
    - change gearOrder
        with ([sunscreen; hat; umbrella; boots; coat; waterBottle] ++ [shoes]).
      by apply sublist_inserts_r. }
  split; [|split; [exact Hsub|]].
  - rewrite gear_unfold. cbv zeta.
    by destruct (gearRules t condition uv).
  - eapply sublist_NoDup; [|exact Hsub]. by apply (bool_decide_unpack _).
Qed.

(** X11: the fallback shoes are recommended exactly when no rule fires: no UV
    index above 5, no rain, drizzle, thunder or snow in the condition, and
    a temperature from 15 to 30; they are then the only entry. *)
Theorem gear_fallback_iff (t : Q) (condition : option jsstring) (uv : option Q) :
  (shoes ∈ gear t condition uv <-> gear t condition uv = [shoes])
  /\ (gear t condition uv = [shoes]
      <-> ~ sunny uv /\ ~ rainy condition /\ ~ snowy condition
          /\ (15 <= t <= 30)%Q).
Proof.
  assert (Hnil : gearRules t condition uv = []
                 <-> ~ sunny uv /\ ~ rainy condition /\ ~ snowy condition
                     /\ (15 <= t <= 30)%Q).
  { split.
    - intros H.
      assert (Hno : forall x, x ∉ gearRules t condition uv)
        by (intros x; rewrite H; apply not_elem_of_nil).
      pose proof (Hno sunscreen) as H1. pose proof (Hno umbrella) as H2.
      pose proof (Hno boots) as H3. pose proof (Hno coat) as H4.
      pose proof (Hno waterBottle) as H5.
      rewrite gearRules_member in H1, H2, H3, H4, H5.
      repeat split; [naive_solver | naive_solver | naive_solver | |].
      + destruct (Qlt_le_dec t 15); [|done]. exfalso. apply H4. eauto 10.
      + destruct (Qlt_le_dec 30 t); [|done]. exfalso. apply H5. eauto 10.
    - intros (Hs & Hr & Hn & Ht).
      destruct (gearRules t condition uv) as [|g gs] eqn:E; [done|].
      exfalso. assert (Hg : g ∈ gearRules t condition uv) by (rewrite E; left).
      apply gearRules_member in Hg. naive_solver lra. }
  assert (Hshoes : shoes ∉ gearRules t condition uv).
  { rewrite gearRules_member. naive_solver. }
  rewrite <- Hnil. split.
  - rewrite gear_member. split.
    + intros [H|[H _]]; [done|]. rewrite gear_unfold. cbv zeta. rewrite H. reflexivity.
    + intros H. right. split; [|done].
      rewrite gear_unfold in H. cbv zeta in H.
      destruct (gearRules t condition uv) as [|g gs] eqn:E; [done|].
      simpl in H. injection H as -> ->. destruct Hshoes. left.
  - rewrite gear_unfold. cbv zeta. split.
    + intros H. destruct (gearRules t condition uv) as [|g gs] eqn:E; [done|].
      simpl in H. injection H as -> ->. destruct Hshoes. left.
    + by intros ->.
Qed.

(** X12: the coat and the water bottle are never recommended together, and
    sunscreen and hat always come together. *)
Theorem gear_exclusive (t : Q) (condition : option jsstring) (uv : option Q) :
  ~ (coat ∈ gear t condition uv /\ waterBottle ∈ gear t condition uv)
  /\ (sunscreen ∈ gear t condition uv <-> hat ∈ gear t condition uv).
Proof.
  rewrite !gear_member, !gearRules_member. split.
  - naive_solver lra.
  - naive_solver.
Qed.


Lemma gear_fallback_iff_witness :
  gear 20 (Some (js "clear sky")) (Some 3%Q) = [shoes].
Proof.
  apply (gear_fallback_iff 20 (Some (js "clear sky")) (Some 3%Q)).
  repeat split.
  - intros (u & [= <-] & H). lra.
  - intros H. apply rainyb_spec in H. discriminate H.
  - intros H. apply snowyb_spec in H. discriminate H.
  - lra.
  - lra.
Defined.

Lemma gear_exclusive_witness :
  hat ∈ gear 20 (Some (js "clear sky")) (Some 8%Q).
Proof.
  apply (gear_exclusive 20 (Some (js "clear sky")) (Some 8%Q)).
  by apply (bool_decide_unpack _).
Defined.



(** X13: the page sends the temperature rounded to the nearest integer, so the
    coat is recommended exactly below 14.5 degrees, the water bottle
    exactly from 30.5 degrees on, and the sunscreen exactly when the UV
    value sent is above 5. *)
Theorem gear_request_thresholds
    (d : WeatherSnapshot) (description : jsstring) (uvVal : Q) :
  (coat ∈ requestedGear d description uvVal <-> (temp d < 29 # 2)%Q)
  /\ (waterBottle ∈ requestedGear d description uvVal <-> (61 # 2 <= temp d)%Q)
  /\ (sunscreen ∈ requestedGear d description uvVal <-> (5 < uvVal)%Q).
Proof.
  unfold requestedGear, mathRound.
  pose proof (Qfloor_le (temp d + (1 # 2))) as Hlo.
  pose proof (Qlt_floor (temp d + (1 # 2))) as Hhi.
  set (z := Qfloor (temp d + (1 # 2))) in *.
  rewrite inject_Z_plus in Hhi.
  rewrite !gear_member, !gearRules_member. repeat split.
  - intros [H|[_ H]]; [|done].
    assert (Hz : (inject_Z z < inject_Z 15)%Q) by naive_solver.
    rewrite <- Zlt_Qlt in Hz.
    assert (Hz' : (z + 1 <= 15)%Z) by lia.
    rewrite Zle_Qle in Hz'. rewrite inject_Z_plus in Hz'.
    change (inject_Z 1) with 1%Q in *. change (inject_Z 15) with 15%Q in *. lra.
  - intros H. left. do 3 right. left. split; [|done].
    change (inject_Z 1) with 1%Q in *. lra.
  - intros [H|[_ H]]; [|done].
    assert (Hz : (inject_Z 30 < inject_Z z)%Q) by naive_solver.
    rewrite <- Zlt_Qlt in Hz.
    assert (Hz' : (31 <= z)%Z) by lia.
    rewrite Zle_Qle in Hz'. change (inject_Z 31) with 31%Q in *. lra.
  - intros H. left. do 4 right. split; [|done].
    destruct (Qlt_le_dec 30 (inject_Z z)) as [|Hle]; [done|]. exfalso.
    assert (Hz : (inject_Z z <= inject_Z 30)%Q) by exact Hle.
    rewrite <- Zle_Qle in Hz.
    assert (Hz' : (z + 1 <= 31)%Z) by lia.
    rewrite Zle_Qle in Hz'. rewrite inject_Z_plus in Hz'.
    change (inject_Z 1) with 1%Q in *. change (inject_Z 31) with 31%Q in *. lra.
  - intros [H|[_ H]]; [|done].
    assert (Hs : sunny (Some (orZero (Some uvVal)))) by naive_solver.
    destruct Hs as (u & [= <-] & Hu). unfold orZero in Hu.
    destruct (Qeq_bool uvVal 0); [lra | done].
  - intros H. left. left. split; [|by left].
    exists (orZero (Some uvVal)). split; [done|]. unfold orZero.
    destruct (Qeq_bool uvVal 0) eqn:E; [|done].
    apply Qeq_bool_iff in E. lra.
Qed.

Lemma gear_request_thresholds_witness :
  coat ∈ requestedGear (Snapshot (72 # 5) 50 3 (js "Clouds")) (js "few clouds") 1.
Proof.
  apply (gear_request_thresholds (Snapshot (72 # 5) 50 3 (js "Clouds"))
           (js "few clouds") 1).
  simpl. lra.
Defined.

(** ** UV index *)

(** X14: the description and the colour of the UV card change at the same
    thresholds: Low with teal up to 2, Moderate with yellow up to 5, High
    with orange up to 7, Very High with red above. *)
Theorem uv_bands_agree (uvi : Q) :
  ((uvi <= 2)%Q -> getUVDesc uvi = js "Low" /\ uvColor uvi = js "#03dac6")
  /\ ((2 < uvi <= 5)%Q ->
      getUVDesc uvi = js "Moderate" /\ uvColor uvi = js "#ffeb3b")
  /\ ((5 < uvi <= 7)%Q ->
      getUVDesc uvi = js "High" /\ uvColor uvi = js "#ff9800")
  /\ ((7 < uvi)%Q ->
      getUVDesc uvi = js "Very High" /\ uvColor uvi = js "#cf6679").
Proof.
  unfold getUVDesc, uvColor. repeat split; qcases; first [done | lra].
Qed.

Lemma uv_bands_agree_witness :
  getUVDesc 6 = js "High" /\ uvColor 6 = js "#ff9800".
Proof. apply (uv_bands_agree 6). lra. Defined.


(** ** Planner slots *)

Lemma exec_any_case (ws : list jsstring) (s : jsstring) :
  is_Some (exec [Alt true ws] s) <-> Exists (fun w => containsAnyCase w s) ws.
Proof.
  rewrite exec_is_Some, !Exists_exists. split.
  - intros (pre & post & -> & Hr). rewrite run_Alt in Hr.
    change (run [] init) with (fun s' : jsstring => Some (init, s')) in Hr.
    apply tryAlts_is_Some, Exists_exists in Hr as (w & Hw & Hr).
    apply stripPrefix_folded_iff in Hr as (m & post' & -> & Hm).
    exists w. split; [done|]. by exists pre, m, post'.
  - intros (w & Hw & pre & mid & post & -> & Hm). exists pre, (mid ++ post).
    split; [done|]. rewrite run_Alt.
    change (run [] init) with (fun s' : jsstring => Some (init, s')).
    apply tryAlts_is_Some, Exists_exists. exists w. split; [done|].
    apply stripPrefix_folded_iff. eauto.
Qed.

(** X16: the suggestion of a planner slot: precipitation comes first, whatever
    the temperature; otherwise heat above 30, cold below 10, and good
    conditions from 10 to 30. *)
Theorem slot_suggestion_table (t pop : Q) (main : jsstring) :
  (wet pop main -> getSlotSuggestion t pop main = js "Expect precipitation, stay dry.")
  /\ (~ wet pop main -> (30 < t)%Q ->
      getSlotSuggestion t pop main = js "Heat warning, stay cool.")
  /\ (~ wet pop main -> (t < 10)%Q ->
      getSlotSuggestion t pop main = js "Bundle up.")
  /\ (~ wet pop main -> (10 <= t <= 30)%Q ->
      getSlotSuggestion t pop main = js "Conditions look good.").
Proof.
  assert (Hwet : Qgtb pop (1 # 2)
                 || bool_decide (is_Some (exec [Alt true [js "rain"; js "snow"]] main))
                 = true <-> wet pop main).
  { unfold wet, Qgtb.
    rewrite orb_true_iff, bool_decide_eq_true, exec_any_case, Qltb_true.
    rewrite !Exists_cons, Exists_nil. tauto. }
  unfold getSlotSuggestion.
  destruct (Qgtb pop (1 # 2)
            || bool_decide (is_Some (exec [Alt true [js "rain"; js "snow"]] main))).
  - repeat split; try done; intros Hn; destruct Hn; by apply Hwet.
  - assert (~ wet pop main) by (intros Hw; by apply Hwet in Hw).
    repeat split; try done; intros _ Ht; qcases; first [done | lra].
Qed.

Lemma slot_suggestion_table_witness :
  getSlotSuggestion 35 (4 # 5) (js "Clear") = js "Expect precipitation, stay dry.".
Proof.
  apply (slot_suggestion_table 35 (4 # 5) (js "Clear")). left. reflexivity.
Defined.

Lemma getSlot_setSlot (s s' : slotName) (v : SlotData) (slots : Slots) :
  getSlot s (setSlot s' v slots)
  = if decide (s = s') then Some v else getSlot s slots.
Proof. by destruct s, s'. Qed.

Lemma forecast_fold (getHours : Z -> Z) (s : slotName)
    (l : list ForecastItem) (slots : Slots) :
  getSlot s (fold_left (forecastStep getHours) l slots)
  = match getSlot s slots with
    | Some v => Some v
    | None => slotDataOf <$> head (filter (inSlot getHours s) l)
    end.
Proof.
  revert slots; induction l as [|item l IH]; intros slots; simpl.
  - by destruct (getSlot s slots).
  - rewrite IH. unfold forecastStep. rewrite filter_cons.
    destruct (decide (inSlot getHours s item)) as [Hin|Hin]; unfold inSlot in Hin.
    + rewrite Hin. destruct (getSlot s slots) as [v|] eqn:E.
      * by rewrite E.
      * rewrite getSlot_setSlot, decide_True by done. done.
    + destruct (getSlot (slotOfHour (getHours (dt item * 1000)%Z)) slots)
        as [v|] eqn:E; [done|].
      by rewrite getSlot_setSlot, decide_False by done.
Qed.

(** X17: each planner slot holds the first entry of the forecast list, in list
    order, whose hour falls into the slot, and is empty when there is
    none. *)
Theorem forecast_first_in_slot (getHours : Z -> Z) (s : slotName)
    (l : list ForecastItem) :
  getSlot s (processForecast getHours l)
  = slotDataOf <$> head (filter (inSlot getHours s) l).
Proof. unfold processForecast. rewrite forecast_fold. by destruct s. Qed.

(** ** Response cache: other keys, and the two key spaces *)

(** X18: reading or writing one key leaves every other key as it was, and a
    read never adds an entry. *)
Theorem cache_other_keys
    (aiCache : gmap jsstring entry) (key other : jsstring) (now : Z)
    (value : jsstring) :
  key <> other ->
  snd (getCached now key aiCache) !! other = aiCache !! other
  /\ setCache now key value aiCache !! other = aiCache !! other
  /\ dom (snd (getCached now key aiCache)) ⊆ dom aiCache.
Proof.
  intros Hne. unfold getCached, setCache. repeat split.
  - destruct (aiCache !! key) as [e|]; [|done].
    destruct (now - ts e >? CACHE_TTL)%Z; simpl; [|done].
    by rewrite lookup_delete_ne.
  - by rewrite lookup_insert_ne.
  - destruct (aiCache !! key) as [e|]; [|done].
    destruct (now - ts e >? CACHE_TTL)%Z; simpl; [|done].
    rewrite dom_delete_L. set_solver.
Qed.

Lemma cache_other_keys_witness :
  setCache 5 (js "travel_paris") (js "x") ∅ !! js "travel_rome"
  = (∅ : gmap jsstring entry) !! js "travel_rome".
Proof.
  apply (cache_other_keys ∅ (js "travel_paris") (js "travel_rome") 5 (js "x")).
  discriminate.
Defined.

Lemma toLowerCase_app (a b : jsstring) :
  toLowerCase (a ++ b) = toLowerCase a ++ toLowerCase b.
Proof. apply map_app. Qed.



(** ** The AI endpoints and the cache *)








(** ** Trimming *)

Lemma trimStart_spaces (ws l : jsstring) :
  Forall (fun c => isSpace c = true) ws -> trimStart (ws ++ l) = trimStart l.
Proof. induction 1 as [|c ws Hc _ IH]; simpl; [done|]. by rewrite Hc. Qed.

Lemma trimStart_head (s : jsstring) :
  trimStart s = [] \/ exists c t, trimStart s = c :: t /\ isSpace c = false.
Proof.
  induction s as [|c s IH]; simpl; [by left|].
  destruct (isSpace c) eqn:E; [done|]. right. eauto.
Qed.

Lemma trimStart_nonspace (c : N) (t : jsstring) :
  isSpace c = false -> trimStart (c :: t) = c :: t.
Proof. intros H. simpl. by rewrite H. Qed.

Lemma trimStart_idem (s : jsstring) : trimStart (trimStart s) = trimStart s.
Proof.
  destruct (trimStart_head s) as [->|(c & t & -> & Hc)]; [done|].
  by apply trimStart_nonspace.
Qed.

Lemma trimStart_app (a b : jsstring) :
  trimStart (a ++ b)
  = match trimStart a with
    | [] => trimStart b
    | _ :: _ => trimStart a ++ b
    end.
Proof.
  induction a as [|c a IH]; simpl; [by destruct (trimStart b)|].
  by destruct (isSpace c).
Qed.

Lemma trimEnd_cons_nonspace (c : N) (t : jsstring) :
  isSpace c = false -> trimEnd (c :: t) = c :: trimEnd t.
Proof.
  intros Hc. unfold trimEnd. simpl. rewrite trimStart_app.
  destruct (trimStart (rev t)) as [|x xs] eqn:E.
  - by rewrite trimStart_nonspace.
  - by rewrite rev_app_distr.
Qed.

Lemma trimEnd_idem (s : jsstring) : trimEnd (trimEnd s) = trimEnd s.
Proof. unfold trimEnd. by rewrite rev_involutive, trimStart_idem. Qed.

Lemma trimEnd_snoc_space (l : jsstring) (c : N) :
  isSpace c = true -> trimEnd (l ++ [c]) = trimEnd l.
Proof.
  intros Hc. unfold trimEnd. rewrite rev_app_distr. simpl. by rewrite Hc.
Qed.

Lemma trim_idem (s : jsstring) : trim (trim s) = trim s.
Proof.
  unfold trim.
  destruct (trimStart_head s) as [->|(c & t & -> & Hc)]; [done|].
  rewrite (trimEnd_cons_nonspace c t Hc), (trimStart_nonspace c _ Hc).
  by rewrite <- (trimEnd_cons_nonspace c t Hc), trimEnd_idem.
Qed.

Lemma trim_snoc_space (l : jsstring) (c : N) :
  isSpace c = true -> trim (l ++ [c]) = trim l.
Proof.
  intros Hc. unfold trim. rewrite trimStart_app.
  destruct (trimStart l) as [|x xs] eqn:E.
  - simpl. by rewrite Hc.
  - by apply trimEnd_snoc_space.
Qed.

Lemma elem_of_trimStart (x : N) (s : jsstring) : x ∈ trimStart s -> x ∈ s.
Proof.
  induction s as [|c s IH]; simpl; [done|].
  destruct (isSpace c); [|done]. intros H. right. by apply IH.
Qed.

Lemma elem_of_trim (x : N) (s : jsstring) : x ∈ trim s -> x ∈ s.
Proof.
  unfold trim, trimEnd. intros H.
  apply list_elem_of_In, in_rev, list_elem_of_In, elem_of_trimStart in H.
  apply list_elem_of_In, in_rev, list_elem_of_In in H.
  by apply elem_of_trimStart.
Qed.

Lemma stripStars_no_star (s : jsstring) : star ∉ stripStars s.
Proof.
  unfold stripStars. intros H. apply list_elem_of_In, filter_In in H as [_ H].
  done.
Qed.

Lemma clean_trim_stripStars (s : jsstring) : clean (trim (stripStars s)).
Proof.
  split; [|apply trim_idem].
  intros H. by apply elem_of_trim, stripStars_no_star in H.
Qed.

Lemma clean_nil : clean [].
Proof. split; [apply not_elem_of_nil | done]. Qed.

(** ** Travel advice: what reaches the page *)

Lemma parsePlace_clean (l : jsstring) (p : Place) :
  parsePlace l = Some p -> clean (name p) /\ clean (desc p).
Proof.
  unfold parsePlace. destruct (execAnchored placeRe l) as [m|].
  - intros [= <-]. simpl. split; apply clean_trim_stripStars.
  - destruct (nonEmpty _); [|done]. intros [= <-]. simpl.
    split; [apply clean_trim_stripStars | apply clean_nil].
Qed.

Lemma parsePlaces_clean (lines : option (list jsstring)) :
  Forall (fun p => clean (name p) /\ clean (desc p)) (parsePlaces lines).
Proof.
  unfold parsePlaces. induction (default [] lines) as [|l ls IH]; simpl.
  - constructor.
  - destruct (parsePlace l) as [p|] eqn:E; [|done].
    constructor; [by eapply parsePlace_clean | done].
Qed.

(** X23: no emphasis star and no surrounding white space ever reaches the page:
    every name and description of a place or nearby escape, and the WEAR,
    EAT and ALERT texts, are free of stars and already trimmed. *)
Theorem advice_fields_clean (raw : jsstring) (doc : AdviceDocument) :
  parseAdvice raw = Ok doc ->
  Forall (fun p => clean (name p) /\ clean (desc p)) (places doc ++ nearby doc)
  /\ clean (wear doc) /\ clean (eat doc) /\ clean (alert doc).
Proof.
  unfold parseAdvice. destruct (parseSections raw) as [st|e]; simpl; [|done].
  intros [= <-]. simpl. split.
  - apply Forall_app. split; apply parsePlaces_clean.
  - unfold freeText. repeat split; apply clean_trim_stripStars.
Qed.

Lemma advice_fields_clean_witness :
  clean (js "Light coat").
Proof.
  apply (advice_fields_clean (js "WEAR:  **Light** coat  ")
           {| places := []; nearby := []; wear := js "Light coat";
              eat := []; alert := [] |}).
  by vm_compute.
Defined.

(** ** Travel advice: the shape of the sections *)

Lemma nonEmpty_true (s : jsstring) : nonEmpty s = true <-> s <> [].
Proof. by destruct s. Qed.

Lemma scanLine_wellFormed (st st' : scanState) (line : jsstring) :
  wellFormed st -> scanLine st line = Ok st' -> wellFormed st'.
Proof.
  intros (Hk & Hc & Hl).
  destruct (nonEmpty (trim line)) eqn:Hne.
  - destruct (labelOf line) as [[k r]|] eqn:Hlab.
    + rewrite (scanLine_label _ _ _ _ Hlab). intros [= <-].
      unfold wellFormed. simpl.
      pose proof (labelOf_key _ _ _ Hlab) as Hin.
      repeat split.
      * intros k'. rewrite lookup_insert. case_decide; [by subst | by apply Hk].
      * by right.
      * intros k' ls. rewrite lookup_insert. case_decide; [|by apply Hl].
        intros [= <-]. unfold restLines.
        destruct (nonEmpty r) eqn:Hr; [|constructor].
        constructor; [by apply nonEmpty_true | constructor].
    + rewrite (scanLine_content _ _ Hne Hlab).
      destruct (nonEmpty (currentKey st)) eqn:Hcur; intros [= <-]; [|done].
      unfold wellFormed. simpl. destruct Hc as [Hc|Hc]; [by rewrite Hc in Hcur|].
      repeat split.
      * intros k'. rewrite lookup_insert. case_decide; [by subst | by apply Hk].
      * by right.
      * intros k' ls. rewrite lookup_insert. case_decide; [|by apply Hl].
        intros [= <-]. apply Forall_app. split.
        -- destruct (sections st !! currentKey st) as [ls|] eqn:E; simpl;
             [by eapply Hl | constructor].
        -- constructor; [by apply nonEmpty_true | constructor].
  - rewrite (scanLine_blank _ _ Hne). by intros [= <-].
Qed.

Lemma scanLines_wellFormed (lines : list jsstring) (st st' : scanState) :
  wellFormed st -> scanLines st lines = Ok st' -> wellFormed st'.
Proof.
  revert st; induction lines as [|l ls IH]; intros st Hw; simpl.
  - by intros [= <-].
  - destruct (scanLine st l) as [st1|e] eqn:E; simpl; [|done].
    apply IH. by eapply scanLine_wellFormed.
Qed.

(** X24: whatever the text, the scan only ever creates the five sections
    PLACES, NEARBY, WEAR, EAT and ALERT, and never stores an empty line
    in any of them. *)
Theorem sections_well_formed (raw : jsstring) (st : scanState) :
  parseSections raw = Ok st ->
  (forall k, k ∉ labels -> sections st !! k = None)
  /\ (forall k ls, sections st !! k = Some ls -> Forall (fun l => l <> []) ls).
Proof.
  intros H. apply scanLines_wellFormed in H as (Hk & _ & Hl).
  - split; [|done]. intros k Hn.
    destruct (sections st !! k) eqn:E; [|done].
    destruct Hn. apply Hk. by rewrite E.
  - repeat split.
    + intros k [x Hx]. simpl in Hx. by rewrite lookup_empty in Hx.
    + by left.
    + intros k ls Hx. simpl in Hx. by rewrite lookup_empty in Hx.
Qed.

Lemma sections_well_formed_witness :
  sections (Scan (<[js "WEAR" := [js "coat"]]> ∅) (js "WEAR")) !! js "SHOES" = None.
Proof.
  apply (sections_well_formed (js "WEAR: coat")
           (Scan (<[js "WEAR" := [js "coat"]]> ∅) (js "WEAR"))).
  - reflexivity.
  - by apply (bool_decide_unpack _).
Defined.

(** ** Travel advice: line endings *)

Lemma scanLine_trim_eq (st : scanState) (l l' : jsstring) :
  trim l = trim l' -> scanLine st l = scanLine st l'.
Proof. intros H. unfold scanLine. by rewrite H. Qed.

Lemma split_crlf (raw : jsstring) :
  Forall2 (fun l l' => l' = l \/ l' = l ++ [13])
          (split nl raw) (split nl (crlf raw)).
Proof.
  induction raw as [|c raw IH]; simpl.
  - constructor; [by left | constructor].
  - destruct (N.eqb_spec c nl) as [->|Hne]; simpl.
    + constructor; [by right | exact IH].
    + destruct (N.eqb_spec c nl) as [|_]; [done|].
      destruct IH as [|l l' ls ls' Hl Hls]; [constructor; [by left|constructor]|].
      constructor; [|done]. destruct Hl as [->| ->]; [by left | by right].
Qed.

Lemma scanLines_crlf (lines lines' : list jsstring) :
  Forall2 (fun l l' => l' = l \/ l' = l ++ [13]) lines lines' ->
  forall st, scanLines st lines' = scanLines st lines.
Proof.
  induction 1 as [|l l' ls ls' Hl _ IH]; intros st; simpl; [done|].
  assert (Ht : trim l' = trim l).
  { destruct Hl as [->| ->]; [done|]. by apply trim_snoc_space. }
  rewrite (scanLine_trim_eq st l' l Ht).
  destruct (scanLine st l); simpl; [apply IH | done].
Qed.

(** X25: a text with CR LF line endings parses to the same document as the text
    with LF line endings. *)
Theorem advice_crlf_insensitive (raw : jsstring) :
  parseAdvice (crlf raw) = parseAdvice raw.
Proof.
  unfold parseAdvice, parseSections.
  by rewrite (scanLines_crlf _ _ (split_crlf raw)).
Qed.

(** ** The label pattern, read directly *)

Lemma take_drop_while (p : N -> bool) (s : jsstring) :
  s = takeWhileB p s ++ dropWhileB p s.
Proof.
  induction s as [|c s IH]; simpl; [done|].
  destruct (p c); simpl; [by rewrite <- IH | done].
Qed.

Lemma take_takeWhile (p : N -> bool) (s : jsstring) :
  take (length s - length (dropWhileB p s)) s = takeWhileB p s.
Proof.
  rewrite (take_drop_while p s) at 1 3.
  rewrite length_app, Nat.add_sub. apply take_app_length.
Qed.

Lemma trimStart_dropWhile (s : jsstring) : trimStart s = dropWhileB isSpace s.
Proof. induction s as [|c s IH]; simpl; [done|]. by rewrite IH. Qed.

(** A greedy star keeps the longest run when the rest of the pattern
    matches after it... *)
Lemma greedyStar_total {R} (k : jsstring -> option R) p s :
  (forall x, is_Some (k x)) -> greedyStar k p s = k (dropWhileB p s).
Proof.
  intros Hk. induction s as [|c s IH]; simpl; [done|].
  destruct (p c); [|done]. rewrite IH.
  by destruct (Hk (dropWhileB p s)) as [r ->].
Qed.

(** ... and also when the rest of the pattern cannot start with a
    character of the class. *)
Lemma greedyStar_blocked {R} (k : jsstring -> option R) p s :
  (forall c x, p c = true -> k (c :: x) = None) ->
  greedyStar k p s = k (dropWhileB p s).
Proof.
  intros Hk. induction s as [|c s IH]; simpl; [done|].
  destruct (p c) eqn:E; [|done]. rewrite IH.
  destruct (k (dropWhileB p s)); [done|]. by apply Hk.
Qed.

(** The tail of the label pattern after the label word. *)
Lemma run_after_label (st : mstate) (s1 : jsstring) :
  exists rest,
    run [Cls isSpace Star; Lit (js ":"); Cls isSpace Star;
         Open 2; Cls dot Star; Close 2] st s1
    = match afterLabel s1 with
      | Some r => Some (MState ((2%nat, r ++ rest) :: opens st)
                               ((2%nat, r) :: caps st), rest)
      | None => None
      end.
Proof.
  set (k5 := fun (z e : jsstring) =>
               run [Close 2] (openGroup 2 z st) e).
  set (k4 := fun z : jsstring => greedyStar (k5 z) dot z).
  set (k3 := fun y : jsstring => greedyStar k4 isSpace y).
  set (k2 := fun x : jsstring => tryAlts k3 false [js ":"] x).
  change (run [Cls isSpace Star; Lit (js ":"); Cls isSpace Star;
               Open 2; Cls dot Star; Close 2] st s1)
    with (greedyStar k2 isSpace s1).
  assert (H5 : forall z e, k5 z e
               = Some (MState ((2%nat, z) :: opens st)
                              ((2%nat, take (length z - length e) z) :: caps st), e)).
  { intros z e. unfold k5. simpl. unfold closeGroup. simpl. done. }
  assert (H4 : forall z, k4 z
               = Some (MState ((2%nat, z) :: opens st)
                              ((2%nat, takeWhileB dot z) :: caps st),
                       dropWhileB dot z)).
  { intros z. unfold k4. rewrite greedyStar_total.
    - by rewrite H5, take_takeWhile.
    - intros x. rewrite H5. eauto. }
  assert (H3 : forall y, k3 y = k4 (trimStart y)).
  { intros y. unfold k3. rewrite greedyStar_total, trimStart_dropWhile; [done|].
    intros x. rewrite H4. eauto. }
  assert (H2 : forall x, k2 x = match x with
                                | c :: y => if c =? 58 then k3 y else None
                                | [] => None
                                end).
  { intros [|c y]; unfold k2; [done|].
    change (tryAlts k3 false [js ":"] (c :: y))
      with (match (if 58 =? c then Some y else None) with
            | Some s' => match k3 s' with Some r => Some r | None => None end
            | None => None
            end).
    rewrite (N.eqb_sym 58 c). destruct (c =? 58); [|done].
    by destruct (k3 y). }
  rewrite greedyStar_blocked, <- trimStart_dropWhile.
  2:{ intros c x Hc. rewrite H2.
      destruct (N.eqb_spec c 58) as [->|]; [done|done]. }
  rewrite H2. unfold afterLabel.
  destruct (trimStart s1) as [|c y]; [by exists []|].
  destruct (c =? 58); [|by exists []].
  rewrite H3, H4. exists (dropWhileB dot (trimStart y)).
  by rewrite <- take_drop_while.
Qed.

Lemma labels_upper (w : jsstring) : w ∈ labels -> toUpperCase w = w.
Proof.
  unfold labels. intros Hw.
  repeat (apply elem_of_cons in Hw as [->|Hw]; [reflexivity|]).
  by apply elem_of_nil in Hw.
Qed.

Lemma tryAlts_cons {R} (k : jsstring -> option R) ci w ws s :
  tryAlts k ci (w :: ws) s
  = match stripPrefix (eqChar ci) w s with
    | Some s' => match k s' with
                 | Some r => Some r
                 | None => tryAlts k ci ws s
                 end
    | None => tryAlts k ci ws s
    end.
Proof. reflexivity. Qed.

Lemma tryAlts_direct (s : jsstring) (ws : list jsstring) :
  (forall w, w ∈ ws -> toUpperCase w = w) ->
  (fun m => (toUpperCase (group 1 m), group 2 m))
    <$> tryAlts (run [Close 1; Cls isSpace Star; Lit (js ":"); Cls isSpace Star;
                      Open 2; Cls dot Star; Close 2] (openGroup 1 s init))
          true ws s
  = labelDirectFrom ws s.
Proof.
  intros Hws. induction ws as [|w ws IH]; [done|].
  assert (IH' := IH (fun w' Hw' =>
                       Hws w' (proj2 (elem_of_cons _ _ _) (or_intror Hw')))).
  rewrite tryAlts_cons. cbn [labelDirectFrom].
  destruct (stripPrefix (eqChar true) w s) as [s1|] eqn:Hp; [|exact IH'].
  rewrite run_Close.
  destruct (run_after_label (closeGroup 1 s1 (openGroup 1 s init)) s1)
    as [rest ->].
  destruct (afterLabel s1) as [r|]; [|exact IH'].
  cbn [fmap option_fmap option_map]. f_equal.
  apply stripPrefix_folded in Hp as (m0 & -> & Hm0).
  unfold group, closeGroup, openGroup. cbn [fst caps opens assoc Nat.eqb default].
  rewrite length_app, Nat.add_sub, take_app_length.
  unfold id. rewrite Hm0. f_equal. apply Hws. left.
Qed.

(** X26: the label pattern of the scan accepts exactly the lines that, once
    trimmed, start with one of the five label words in any letter case,
    followed by optional white space, a colon and optional white space;
    the key is the label in upper case and the rest is what follows, up
    to the first line terminator. *)
Theorem labelOf_direct (line : jsstring) : labelOf line = labelDirect line.
Proof.
  unfold labelOf, labelDirect, execAnchored, sectionRe.
  rewrite run_Open, run_Alt.
  rewrite <- (tryAlts_direct (trim line) labels labels_upper).
  fold labels.
  by destruct (tryAlts _ true labels (trim line)).
Qed.

(** ** Comparison verdict: a text in the requested format *)

Lemma run_Lit (w : jsstring) (pat : list atom) (st : mstate) (s : jsstring) :
  run (Lit w :: pat) st s
  = match stripPrefix N.eqb w s with
    | Some s' => run pat st s'
    | None => None
    end.
Proof.
  unfold Lit. rewrite run_Alt, tryAlts_cons.
  change (stripPrefix (eqChar false) w s) with (stripPrefix N.eqb w s).
  destruct (stripPrefix N.eqb w s) as [s'|]; [|done].
  by destruct (run pat st s').
Qed.

Lemma stripPrefix_app (w s : jsstring) : stripPrefix N.eqb w (w ++ s) = Some s.
Proof. by apply stripPrefix_exact. Qed.

Lemma exec_skip (pat : list atom) (c : N) (s : jsstring) :
  run pat init (c :: s) = None -> exec pat (c :: s) = exec pat s.
Proof. intros H. by rewrite exec_cons, H. Qed.

Lemma exec_found (pat : list atom) (s : jsstring) r :
  run pat init s = Some r -> exec pat s = Some r.
Proof.
  intros H. destruct s; [by rewrite exec_nil | by rewrite exec_cons, H].
Qed.

(** A literal of seven characters that ends in a colon does not start
    inside a text without colon that is followed by seven characters of
    which the first six are no colon. *)
Lemma no_label_inside (lab next y rest : jsstring) :
  lab !! 6%nat = Some 58 ->
  length next = 7%nat ->
  (forall j, (j < 6)%nat -> next !! j <> Some 58) ->
  y <> [] -> 58 ∉ y ->
  stripPrefix N.eqb lab (y ++ next ++ rest) = None.
Proof.
  intros Hlab Hlen Hnext Hy Hc.
  destruct (stripPrefix N.eqb lab (y ++ next ++ rest)) as [s'|] eqn:E; [|done].
  exfalso. apply stripPrefix_exact in E.
  assert (H6 : (y ++ next ++ rest) !! 6%nat = Some 58).
  { rewrite E. rewrite lookup_app_l; [done|]. by eapply lookup_lt_Some. }
  destruct (decide (6 < length y)%nat) as [Hlt|Hge].
  - rewrite lookup_app_l in H6 by done.
    apply Hc. by eapply list_elem_of_lookup_2.
  - rewrite lookup_app_r in H6 by lia.
    assert (length y <> 0%nat) by (by destruct y).
    rewrite lookup_app_l in H6 by lia.
    by apply (Hnext (6 - length y)%nat); [lia|].
Qed.

Lemma exec_skip_body (lab next : jsstring) (pat : list atom)
    (y rest : jsstring) :
  lab !! 6%nat = Some 58 ->
  length next = 7%nat ->
  (forall j, (j < 6)%nat -> next !! j <> Some 58) ->
  58 ∉ y ->
  exec (Lit lab :: pat) (y ++ next ++ rest)
  = exec (Lit lab :: pat) (next ++ rest).
Proof.
  intros Hlab Hlen Hnext. induction y as [|c y IH]; intros Hc; [done|].
  apply not_elem_of_cons in Hc as [Hc Hy].
  change ((c :: y) ++ next ++ rest) with (c :: (y ++ next ++ rest)).
  rewrite exec_skip; [by apply IH|].
  rewrite run_Lit.
  change (c :: (y ++ next ++ rest)) with ((c :: y) ++ next ++ rest).
  rewrite (no_label_inside lab next (c :: y) rest); try done.
  by apply not_elem_of_cons.
Qed.

Lemma greedyStar_spaces {R} (k : jsstring -> option R) (ws x : jsstring) :
  Forall (fun c => isSpace c = true) ws ->
  is_Some (greedyStar k isSpace x) ->
  greedyStar k isSpace (ws ++ x) = greedyStar k isSpace x.
Proof.
  intros Hws [r Hr]. induction Hws as [|c ws Hc _ IH]; simpl; [done|].
  by rewrite Hc, IH, Hr.
Qed.

Lemma split_trimStart (s : jsstring) :
  exists ws, Forall (fun c => isSpace c = true) ws /\ s = ws ++ trimStart s.
Proof.
  induction s as [|c s (ws & Hws & IH)]; simpl.
  - by exists [].
  - destruct (isSpace c) eqn:E.
    + exists (c :: ws). split; [by constructor|]. simpl. by rewrite <- IH.
    + by exists [].
Qed.

Lemma lazyStar_skip {R} (k : jsstring -> option R) (b post : jsstring) :
  (forall y, y <> [] -> y `suffix_of` b -> k (y ++ post) = None) ->
  lazyStar k dotAll (b ++ post) = lazyStar k dotAll post.
Proof.
  induction b as [|c b IH]; intros H; [done|].
  change ((c :: b) ++ post) with (c :: (b ++ post)).
  assert (Hk : k (c :: (b ++ post)) = None) by (by apply (H (c :: b))).
  simpl. rewrite Hk. apply IH.
  intros y Hy Hs. apply H; [done|]. by apply suffix_cons_r.
Qed.

Lemma lazyStar_here {R} (k : jsstring -> option R) p s r :
  k s = Some r -> lazyStar k p s = Some r.
Proof. intros H. destruct s; simpl; by rewrite H. Qed.

(** The three patterns of [renderVerdict] at their label: after the label
    and white space, the capture runs up to the first place where the last
    piece [a] of the pattern accepts. *)
Lemma run_field (lab : jsstring) (a : atom) (body post : jsstring)
    (c1 : N) (b2 : jsstring) :
  trimStart body = c1 :: b2 ->
  (forall st y, y <> [] -> y `suffix_of` b2 -> run [a] st (y ++ post) = None) ->
  (forall st, run [a] st post = Some (st, post)) ->
  exists m,
    run [Lit lab; Cls isSpace Star; Open 1; Cls dotAll PlusLazy; Close 1; a]
        init (lab ++ body ++ post) = Some m
    /\ group 1 m = c1 :: b2.
Proof.
  intros Hb Hno Hyes.
  rewrite run_Lit, stripPrefix_app.
  destruct (split_trimStart body) as (ws & Hws & Hbody).
  rewrite Hb in Hbody.
  assert (Hc1 : isSpace c1 = false).
  { destruct (trimStart_head body) as [E|(c & t & E & Hc)]; rewrite Hb in E;
      [done | by injection E as -> ->]. }
  set (st1 := openGroup 1 (c1 :: b2 ++ post) init).
  assert (Hinner : run [Open 1; Cls dotAll PlusLazy; Close 1; a] init
                       (c1 :: b2 ++ post)
                   = Some (closeGroup 1 post st1, post)).
  { rewrite run_Open. fold st1.
    change (run [Cls dotAll PlusLazy; Close 1; a] st1 (c1 :: b2 ++ post))
      with (lazyStar (run [Close 1; a] st1) dotAll (b2 ++ post)).
    rewrite lazyStar_skip.
    - apply lazyStar_here. rewrite run_Close. apply Hyes.
    - intros y Hy Hs. rewrite run_Close. by apply Hno. }
  assert (Hgreedy : greedyStar (run [Open 1; Cls dotAll PlusLazy; Close 1; a] init)
                      isSpace (c1 :: b2 ++ post)
                    = Some (closeGroup 1 post st1, post)).
  { simpl greedyStar. rewrite Hc1. exact Hinner. }
  exists (closeGroup 1 post st1, post). split.
  - change (run [Cls isSpace Star; Open 1; Cls dotAll PlusLazy; Close 1; a]
              init (body ++ post))
      with (greedyStar (run [Open 1; Cls dotAll PlusLazy; Close 1; a] init)
              isSpace (body ++ post)).
    rewrite Hbody, <- app_assoc.
    change ((c1 :: b2) ++ post) with (c1 :: b2 ++ post).
    rewrite greedyStar_spaces; [exact Hgreedy | done | rewrite Hgreedy; eauto].
  - unfold group, closeGroup, st1, openGroup.
    cbn [fst caps opens assoc Nat.eqb default].
    change (c1 :: b2 ++ post) with ((c1 :: b2) ++ post).
    by rewrite length_app, Nat.add_sub, take_app_length.
Qed.

Lemma trim_trimStart (s : jsstring) : trim (trimStart s) = trim s.
Proof. unfold trim. by rewrite trimStart_idem. Qed.

Lemma trim_nonempty_trimStart (s : jsstring) :
  trim s <> [] -> exists c t, trimStart s = c :: t.
Proof.
  intros H. destruct (trimStart s) as [|c t] eqn:E; [|eauto].
  unfold trim in H. by rewrite E in H.
Qed.

Lemma suffix_no_colon (y b : jsstring) : y `suffix_of` b -> 58 ∉ b -> 58 ∉ y.
Proof. intros [k ->] H Hy. apply H, elem_of_app. by right. Qed.

Lemma lookahead_stops (next y rest : jsstring) (st : mstate) :
  length next = 7%nat ->
  next !! 6%nat = Some 58 ->
  (forall j, (j < 6)%nat -> next !! j <> Some 58) ->
  y <> [] -> 58 ∉ y ->
  run [Ahead [LookLit next; LookEnd]] st (y ++ next ++ rest) = None.
Proof.
  intros Hlen H6 Hj Hy Hc.
  change (run [Ahead [LookLit next; LookEnd]] st (y ++ next ++ rest))
    with (if existsb (lookOk (y ++ next ++ rest)) [LookLit next; LookEnd]
          then Some (st, y ++ next ++ rest) else None).
  cbn [existsb lookOk].
  rewrite (no_label_inside next next y rest) by done.
  rewrite bool_decide_eq_false_2 by (by intros [? [=]]).
  by destruct y.
Qed.

Lemma lookahead_accepts (next rest : jsstring) (st : mstate) :
  run [Ahead [LookLit next; LookEnd]] st (next ++ rest)
  = Some (st, next ++ rest).
Proof.
  change (run [Ahead [LookLit next; LookEnd]] st (next ++ rest))
    with (if existsb (lookOk (next ++ rest)) [LookLit next; LookEnd]
          then Some (st, next ++ rest) else None).
  cbn [existsb lookOk]. rewrite stripPrefix_app.
  by rewrite bool_decide_eq_true_2 by eauto.
Qed.

Ltac label_facts :=
  repeat split;
  first [ reflexivity
        | by intros [|[|[|[|[|[|j]]]]]] Hj; first [discriminate | exfalso; lia] ].

(** X27: a verdict in the requested format, the three labels in order with
    texts between them, is shown structured with exactly those texts,
    trimmed, provided the comparison and the winner contain no colon and
    none of the three is blank. *)
Theorem verdict_of_requested_format (c w r nameA nameB : jsstring) :
  58 ∉ c -> 58 ∉ w ->
  trim c <> [] -> trim w <> [] -> trim r <> [] ->
  renderVerdict
    (js "COMPARISON:" ++ c ++ js "WINNER:" ++ w ++ js "REASON:" ++ r)
    nameA nameB
  = Structured (trim c) (trim w) (trim r).
Proof.
  intros Hc Hw Htc Htw Htr.
  destruct (trim_nonempty_trimStart c Htc) as (c1 & c2 & Ec).
  destruct (trim_nonempty_trimStart w Htw) as (w1 & w2 & Ew).
  destruct (trim_nonempty_trimStart r Htr) as (r1 & r2 & Er).
  assert (Hc2 : 58 ∉ c2).
  { intros H. apply Hc, elem_of_trimStart. rewrite Ec. by right. }
  assert (Hw2 : 58 ∉ w2).
  { intros H. apply Hw, elem_of_trimStart. rewrite Ew. by right. }
  assert (Hcomp : comparisonOf
                    (js "COMPARISON:" ++ c ++ js "WINNER:" ++ w ++ js "REASON:" ++ r)
                  = trim c).
  { unfold comparisonOf, field, compRe.
    destruct (run_field (js "COMPARISON:")
                (Ahead [LookLit (js "WINNER:"); LookEnd])
                c (js "WINNER:" ++ w ++ js "REASON:" ++ r) c1 c2 Ec)
      as (m & Hm & Hg).
    - intros st y Hy Hs. apply lookahead_stops; try done; try label_facts.
      by eapply suffix_no_colon.
    - intros st. apply lookahead_accepts.
    - rewrite (exec_found _ _ _ Hm), Hg, <- Ec. apply trim_trimStart. }
  assert (Hwin : winnerOf
                   (js "COMPARISON:" ++ c ++ js "WINNER:" ++ w ++ js "REASON:" ++ r)
                 = trim w).
  { unfold winnerOf, field, winRe.
    destruct (run_field (js "WINNER:")
                (Ahead [LookLit (js "REASON:"); LookEnd])
                w (js "REASON:" ++ r) w1 w2 Ew)
      as (m & Hm & Hg).
    - intros st y Hy Hs. apply lookahead_stops; try done; try label_facts.
      by eapply suffix_no_colon.
    - intros st. apply lookahead_accepts.
    - change (js "COMPARISON:") with ([67; 79; 77; 80; 65; 82; 73; 83; 79; 78; 58]).
      cbn [app].
      do 11 (rewrite exec_skip by (rewrite run_Lit; reflexivity)).
      rewrite exec_skip_body; try done; try label_facts.
      rewrite (exec_found _ _ _ Hm), Hg, <- Ew. apply trim_trimStart. }
  assert (Hreason : reasonOf
                      (js "COMPARISON:" ++ c ++ js "WINNER:" ++ w ++ js "REASON:" ++ r)
                    = trim r).
  { unfold reasonOf, field, reasonRe.
    destruct (run_field (js "REASON:") Eol r [] r1 r2 Er) as (m & Hm & Hg).
    - intros st y Hy Hs. rewrite app_nil_r. by destruct y.
    - done.
    - rewrite app_nil_r in Hm.
      change (js "COMPARISON:") with ([67; 79; 77; 80; 65; 82; 73; 83; 79; 78; 58]).
      cbn [app].
      do 11 (rewrite exec_skip by (rewrite run_Lit; reflexivity)).
      rewrite exec_skip_body; try done; try label_facts.
      change (js "WINNER:") with ([87; 73; 78; 78; 69; 82; 58]).
      cbn [app].
      do 7 (rewrite exec_skip by (rewrite run_Lit; reflexivity)).
      rewrite exec_skip_body; try done; try label_facts.
      rewrite (exec_found _ _ _ Hm), Hg, <- Er. apply trim_trimStart. }
  unfold renderVerdict. rewrite Hcomp, Hwin, Hreason.
  by destruct (trim w).
Qed.

Lemma verdict_of_requested_format_witness :
  renderVerdict
    (js "COMPARISON:" ++ (js " Both are mild." ++ [nl]) ++ js "WINNER:"
       ++ (js " Paris" ++ [nl]) ++ js "REASON:" ++ js " Cleaner air.")
    (js "Paris") (js "Rome")
  = Structured (js "Both are mild.") (js "Paris") (js "Cleaner air.").
Proof.
  apply (verdict_of_requested_format (js " Both are mild." ++ [nl])
           (js " Paris" ++ [nl]) (js " Cleaner air.") (js "Paris") (js "Rome")).
  - by apply (bool_decide_unpack _).
  - by apply (bool_decide_unpack _).
  - discriminate.
  - discriminate.
  - discriminate.
Defined.

(** The labels of a verdict are matched with their exact capitalisation. *)
Lemma verdict_without_winner_label_witness :
  renderVerdict (js "Winner: Paris") (js "Paris") (js "Rome")
  = RawText (js "Winner: Paris").
Proof.
  apply (verdict_without_winner_label (js "Winner: Paris") (js "Paris") (js "Rome")).
  intros H. apply includes_spec in H. discriminate H.
Defined.
